(** * Caesar cryptanalysis: a shallow embedding of the Python sources

    Embedded modules: [crypto/caesar.py], [crypto/bruteforce.py],
    [crypto/frequency.py], [crypto/scoring.py] (the tokenizer) and the
    analysis functions and ranking loop of [bin/crack_caesar.py].

    Conventions of the embedding.
    - A Python [str] is the list of its Unicode code points ([list Z]);
      [ord] and [chr] are the identity on code points.
    - The built-in string predicates ([str.isalpha], [str.isupper],
      [str.lower]) belong to the interpreter, not to the repository: they are
      the operations of the class [PyStr], and the facts about them that the
      proofs use (their behaviour on ASCII) are the class [PyStrLaws].
    - Python integers are [Z]; [%] with a positive modulus is [Z.modulo].
    - Python floats are read as exact rationals ([Q]); [round(x, n)] is
      round-half-to-even on the exact value.  Numeric equality ([==] in
      Python) is [Qeq].  The binary64 operations of the interpreter can
      differ from the exact ones in the last place, which shows after
      rounding only at decimal ties; statements about a rounded value are
      therefore bounds, or give the value up to a tolerance.
    - [ZeroDivisionError] is explicit: a function that divides returns in
      the error monad [res]. *)

From Stdlib Require Import ZArith QArith Qround Qabs Qminmax Qpower Lia Lqa.
From Stdlib Require Import Strings.String Strings.Ascii.
From stdpp Require Import base list gmap sorting.

Local Open Scope Z_scope.

(** ** Strings and the interpreter's character tables *)

Abbreviation pystr := (list Z).

(** A string literal of the sources, as code points (ASCII literals only). *)
Definition str (s : string) : pystr :=
  (λ a, Z.of_N (N_of_ascii a)) <$> list_ascii_of_string s.

Definition ord (c : Z) : Z := c.
Definition chr (n : Z) : Z := n.

Class PyStr := {
  (** [c.isalpha()] for a one-character string [c] *)
  isalpha : Z → bool;
  (** [c.isupper()] for a one-character string [c] *)
  isupper : Z → bool;
  (** [c.lower()] for a one-character string [c]; the result is a string
      (some characters lower to two code points) *)
  lower1 : Z → pystr;
  (** [text.lower()] for a whole string *)
  lower : pystr → pystr
}.

Definition is_ascii_upper (c : Z) : bool := (65 <=? c) && (c <=? 90).
Definition is_ascii_lower (c : Z) : bool := (97 <=? c) && (c <=? 122).
Definition is_ascii_letter (c : Z) : bool := is_ascii_upper c || is_ascii_lower c.
Definition ascii_lower (c : Z) : Z := if is_ascii_upper c then c + 32 else c.

(** What the proofs rely on: below U+0080 the interpreter's tables are the
    ASCII ones. *)
Class PyStrLaws (U : PyStr) : Prop := {
  isalpha_ascii : ∀ c, 0 <= c < 128 → isalpha c = is_ascii_letter c;
  isupper_ascii : ∀ c, 0 <= c < 128 → isupper c = is_ascii_upper c;
  lower_ascii : ∀ s, Forall (λ c, 0 <= c < 128) s → lower s = ascii_lower <$> s
}.

(** The tables of CPython restricted to Latin-1 (U+0000 .. U+00FF), where
    they are exact; code points above U+00FF are left unclassified. *)
Module Latin1.
Definition in_range (lo hi c : Z) : bool := (lo <=? c) && (c <=? hi).

Definition isalpha (c : Z) : bool :=
  in_range 65 90 c || in_range 97 122 c || (c =? 170) || (c =? 181)
  || (c =? 186) || in_range 192 214 c || in_range 216 246 c
  || in_range 248 255 c.

Definition isupper (c : Z) : bool :=
  in_range 65 90 c || in_range 192 214 c || in_range 216 222 c.

Definition lower1 (c : Z) : pystr := [if isupper c then c + 32 else c].

Definition lower (s : pystr) : pystr := s ≫= lower1.
End Latin1.

#[export] Instance latin1 : PyStr :=
  {| isalpha := Latin1.isalpha; isupper := Latin1.isupper;
     lower1 := Latin1.lower1; lower := Latin1.lower |}.

(** ** crypto/caesar.py *)

Section Caesar.
Context {U : PyStr}.

(** The body of the loop of [caesar_encrypt] for one character. *)
Definition encrypt_char (k : Z) (char : Z) : Z :=
  if isalpha char then
    let base := if isupper char then ord 65 else ord 97 in
    chr ((ord char - base + k) `mod` 26 + base)
  else char.

Definition caesar_encrypt (plaintext : pystr) (k : Z) : pystr :=
  foldl (λ result char, result ++ [encrypt_char k char]) [] plaintext.

Definition caesar_decrypt (ciphertext : pystr) (k : Z) : pystr :=
  caesar_encrypt ciphertext (- k).

(** ** crypto/bruteforce.py *)

(** [range(1, 26)] *)
Definition range (lo hi : Z) : list Z := seqZ lo (hi - lo).

Definition caesar_bruteforce (ciphertext : pystr) : list (Z * pystr) :=
  foldl (λ results k, results ++ [(k, caesar_decrypt ciphertext k)])
        [] (range 1 26).
End Caesar.

(** ** Numbers and errors *)

Inductive exn := ZeroDivisionError.

Inductive res (A : Type) : Type :=
| Ok (a : A)
| Raise (e : exn).
Arguments Ok {A} a.
Arguments Raise {A} e.

#[export] Instance res_bind : MBind res := λ A B f m,
  match m with
  | Ok a => f a
  | Raise e => Raise e
  end.

(** True division [a / b]. *)
Definition py_div (a b : Q) : res Q :=
  if Qeq_bool b 0 then Raise ZeroDivisionError else Ok (a / b)%Q.

(** Round half to even, on the exact value. *)
Definition round_half_even (x : Q) : Z :=
  let f := Qfloor x in
  match (x - inject_Z f ?= 1 # 2)%Q with
  | Lt => f
  | Gt => f + 1
  | Eq => if Z.even f then f else f + 1
  end.

(** [round(x, ndigits)] *)
Definition round (x : Q) (ndigits : nat) : Q :=
  (inject_Z (round_half_even (x * inject_Z (10 ^ Z.of_nat ndigits)))
   / inject_Z (10 ^ Z.of_nat ndigits))%Q.

(** [len(l)] *)
Definition len {A} (l : list A) : Z := Z.of_nat (length l).

(** ** crypto/scoring.py: the tokenizer *)

(** [re.findall(r"[a-zA-Z]+", s)]: the maximal runs of ASCII letters, left
    to right; [cur] is the run being read. *)
Fixpoint findall_letters (cur : pystr) (s : pystr) : list pystr :=
  match s with
  | [] => match cur with [] => [] | _ => [cur] end
  | c :: s' =>
      if is_ascii_letter c then findall_letters (cur ++ [c]) s'
      else match cur with
           | [] => findall_letters [] s'
           | _ => cur :: findall_letters [] s'
           end
  end.

Section Analysis.
Context {U : PyStr}.

Definition tokenize (text : pystr) : list pystr :=
  findall_letters [] (lower text).

(** ** bin/crack_caesar.py: linguistic features *)

Definition stopwords_stats (text : pystr) (stopwords : gset pystr)
  : res (Z * Z * Q) :=
  let words := tokenize text in
  let n_total := len words in
  let n_stop := len (filter (λ w, w ∈ stopwords) words) in
  pct ← (if 0 <? n_total
         then q ← py_div (inject_Z n_stop) (inject_Z n_total) ; Ok (q * 100)%Q
         else Ok 0%Q) ;
  Ok (n_stop, n_total, round pct 2).

Definition avg_word_length (text : pystr) : res Q :=
  let words := tokenize text in
  match words with
  | [] => Ok 0%Q
  | _ =>
      q ← py_div (inject_Z (foldr Z.add 0 (len <$> words)))
                 (inject_Z (len words)) ;
      Ok (round q 2)
  end.

Definition alpha_ratio (text : pystr) : res Q :=
  let letters := filter (λ c, isalpha c = true) text in
  let total := len text in
  if 0 <? total
  then q ← py_div (inject_Z (len letters)) (inject_Z total) ;
       Ok (round (q * 100) 2)
  else Ok 0%Q.
End Analysis.

(** ** crypto/frequency.py *)

(** The keys are one-character strings, in the order of the dict literal. *)
Definition FRENCH_FREQ : list (pystr * Q) :=
  [(str "a", 7.64); (str "b", 0.90); (str "c", 3.26); (str "d", 3.67);
   (str "e", 14.71); (str "f", 1.06); (str "g", 0.87); (str "h", 0.74);
   (str "i", 7.53); (str "j", 0.61); (str "k", 0.05); (str "l", 5.46);
   (str "m", 2.97); (str "n", 7.10); (str "o", 5.38); (str "p", 3.02);
   (str "q", 1.36); (str "r", 6.55); (str "s", 7.95); (str "t", 7.24);
   (str "u", 6.31); (str "v", 1.84); (str "w", 0.07); (str "x", 0.43);
   (str "y", 0.13); (str "z", 0.33)]%Q.

Definition ENGLISH_FREQ : list (pystr * Q) :=
  [(str "a", 8.17); (str "b", 1.49); (str "c", 2.78); (str "d", 4.25);
   (str "e", 12.70); (str "f", 2.23); (str "g", 2.02); (str "h", 6.09);
   (str "i", 6.97); (str "j", 0.15); (str "k", 0.77); (str "l", 4.03);
   (str "m", 2.41); (str "n", 6.75); (str "o", 7.51); (str "p", 1.93);
   (str "q", 0.10); (str "r", 5.99); (str "s", 6.33); (str "t", 9.06);
   (str "u", 2.76); (str "v", 0.98); (str "w", 2.36); (str "x", 0.15);
   (str "y", 1.97); (str "z", 0.07)]%Q.

(** The characters of ['abcdefghijklmnopqrstuvwxyz'], each a string. *)
Definition alphabet : list pystr :=
  (λ c, [c]) <$> str "abcdefghijklmnopqrstuvwxyz".

(** [collections.Counter(l)]; a missing key reads as 0. *)
Definition Counter (l : list pystr) : gmap pystr Z :=
  foldl (λ count x, <[x := default 0 (count !! x) + 1]> count) ∅ l.

Definition counter_get (count : gmap pystr Z) (x : pystr) : Z :=
  default 0 (count !! x).

(** [x < y] on floats *)
Definition Qltb (x y : Q) : bool := negb (Qle_bool y x).

(** [chi2 < best_chi2] where [best_chi2] starts at [float('inf')],
    written [None]. *)
Definition lt_inf (x : Q) (best : option Q) : bool :=
  match best with
  | None => true
  | Some b => Qltb x b
  end.

Section Frequency.
Context {U : PyStr}.

(** [[c.lower() for c in text if c.isalpha()]] *)
Definition letters_of (text : pystr) : list pystr :=
  lower1 <$> filter (λ c, isalpha c = true) text.

Definition letter_frequency (text : pystr) : res (gmap pystr Q) :=
  let text := letters_of text in
  let total := len text in
  if total =? 0 then Ok ∅
  else
    let count := Counter text in
    foldl (λ acc l,
             d ← acc;
             q ← py_div (inject_Z (counter_get count l)) (inject_Z total);
             Ok (<[l := round (q * 100) 2]> d))
          (Ok ∅) alphabet.

Definition chi_squared_test (text : pystr) (language : pystr) : res Q :=
  let freq_ref :=
    if decide (language = str "fr") then FRENCH_FREQ else ENGLISH_FREQ in
  freq_obs ← letter_frequency text;
  chi2 ← foldl (λ acc item,
                  chi2 ← acc;
                  let observed := default 0%Q (freq_obs !! item.1) in
                  let expected := item.2 in
                  if Qltb 0 expected
                  then q ← py_div ((observed - expected) ^ 2) expected;
                       Ok (chi2 + q)%Q
                  else Ok chi2)
               (Ok 0%Q) freq_ref;
  Ok (round chi2 2).

Definition index_of_coincidence (text : pystr) : res Q :=
  let text := letters_of text in
  let N := len text in
  if N <=? 1 then Ok 0%Q
  else
    let count := Counter text in
    ic ← py_div
           (inject_Z (map_fold (λ _ v acc, acc + v * (v - 1)) 0 count))
           (inject_Z (N * (N - 1)));
    Ok (round ic 4).

(** The inner loop of [frequency_attack_vigenere]: the subtext shifted
    back by [shift]. *)
Definition shift_back (subtext : pystr) (shift : Z) : pystr :=
  foldl (λ decrypted c,
           if isalpha c then
             let base := if isupper c then ord 65 else ord 97 in
             decrypted ++ [chr ((ord c - base - shift) `mod` 26 + base)]
           else decrypted ++ [c])
        [] subtext.

(** One turn of the outer loop; the state is [(best_shift, best_chi2)]. *)
Definition vigenere_step (subtext language : pystr)
    (st : Z * option Q) (shift : Z) : res (Z * option Q) :=
  chi2 ← chi_squared_test (shift_back subtext shift) language;
  if lt_inf chi2 st.2 then Ok (shift, Some chi2) else Ok st.

Definition frequency_attack_vigenere (subtext language : pystr) : res Z :=
  st ← foldl (λ acc shift, st ← acc; vigenere_step subtext language st shift)
             (Ok (0, None)) (range 0 26);
  Ok (chr (ord 97 + st.1)).
End Frequency.

(** ** bin/crack_caesar.py: the composite score *)

Definition score_stopwords (pct_stop : Q) : Q := Qmin (pct_stop / 50) 1.
Definition score_chi2 (chi2 : Q) : Q := Qmax 0 (1 - chi2 / 200).
Definition score_ic (ic : Q) : Q := Qmin (ic / 0.070) 1.
Definition score_avg_len (avg_len : Q) : Q :=
  Qmax 0 (1 - Qabs (5 - avg_len) / 5).
Definition score_alpha (alpha_r : Q) : Q := (alpha_r / 100)%Q.

Definition compute_normalized_score
    (n_stop : Z) (pct_stop chi2 ic avg_len alpha_r : Q) : Q :=
  let score_final :=
    (40 * score_stopwords pct_stop
     + 30 * score_chi2 chi2
     + 15 * score_ic ic
     + 10 * score_avg_len avg_len
     + 5 * score_alpha alpha_r)%Q in
  round score_final 2.

(** ** bin/crack_caesar.py: the analysis loop of [main] and the ranking *)

(** One entry of [results] (a dict with these keys in the source). *)
Record result := {
  key : Z;
  language : pystr;
  plaintext : pystr;
  n_stop : Z;
  n_total : Z;
  pct_stop : Q;
  chi2 : Q;
  ic : Q;
  avg_len : Q;
  alpha_ratio_ : Q;
  score : Q
}.

(** [sorted(l, key=..., reverse=True)]: the stable sort in descending order
    of the key.  [x] was before every element of [l] in the input, so it is
    placed before the first element whose key is not greater. *)
Fixpoint insert_desc {A} (f : A → Q) (x : A) (l : list A) : list A :=
  match l with
  | [] => [x]
  | y :: l' => if Qltb (f x) (f y) then y :: insert_desc f x l'
               else x :: y :: l'
  end.

Definition sorted_reverse {A} (f : A → Q) (l : list A) : list A :=
  foldr (insert_desc f) [] l.

Section Main.
Context {U : PyStr}.

(** The body of the inner loop of [main]. *)
Definition evaluate (k : Z) (text lang : pystr) (stopwords : gset pystr)
  : res result :=
  st ← stopwords_stats text stopwords;
  c2 ← chi_squared_test text lang;
  i ← index_of_coincidence text;
  al ← avg_word_length text;
  ar ← alpha_ratio text;
  let sc := compute_normalized_score st.1.1 st.2 c2 i al ar in
  Ok {| key := k; language := lang; plaintext := text;
        n_stop := st.1.1; n_total := st.1.2; pct_stop := st.2;
        chi2 := c2; ic := i; avg_len := al; alpha_ratio_ := ar;
        score := sc |}.

(** The loops of [main] that fill [results]. *)
Definition analyse (ciphertext : pystr) (stop_fr stop_en : gset pystr)
  : res (list result) :=
  let candidates := caesar_bruteforce ciphertext in
  foldl (λ acc cand,
           foldl (λ acc ls,
                    results ← acc;
                    r ← evaluate cand.1 cand.2 ls.1 ls.2;
                    Ok (results ++ [r]))
                 acc [(str "fr", stop_fr); (str "en", stop_en)])
        (Ok []) candidates.

Definition results_sorted (ciphertext : pystr) (stop_fr stop_en : gset pystr)
  : res (list result) :=
  results ← analyse ciphertext stop_fr stop_en;
  Ok (sorted_reverse score results).
End Main.

(** ** Further functions of the sources *)

(** *** crypto/scoring.py *)

Module Scoring.
Section Scoring.
Context {U : PyStr}.

Definition stopwords_score (text : pystr) (stopwords : gset pystr) : Z :=
  let words := tokenize text in
  len (filter (λ w, w ∈ stopwords) words).

(** Returns the language and the higher of the two scores. *)
Definition detect_language (text : pystr) (stop_fr stop_en : gset pystr)
  : pystr * Z :=
  let score_fr := stopwords_score text stop_fr in
  let score_en := stopwords_score text stop_en in
  if score_en <? score_fr then (str "fr", score_fr) else (str "en", score_en).

End Scoring.
End Scoring.

(** *** crypto/frequency.py: [detect_language] *)

Module Frequency.
Section Frequency.
Context {U : PyStr}.

Definition detect_language (text : pystr) : res pystr :=
  chi_fr ← chi_squared_test text (str "fr");
  chi_en ← chi_squared_test text (str "en");
  Ok (if Qltb chi_fr chi_en then str "fr" else str "en").

End Frequency.
End Frequency.

(** *** bin/crack_caesar.py: the automatic decision of [main] *)

(** The four confidence labels, from the highest. *)
Inductive confidence := TresHaute | Haute | Moyenne | Faible.

(** The [if gap > 10 ... elif gap > 5 ... elif gap > 2 ... else] chain. *)
Definition confidence_of (gap : Q) : confidence :=
  if Qltb 10 gap then TresHaute
  else if Qltb 5 gap then Haute
  else if Qltb 2 gap then Moyenne
  else Faible.

(** [best = results_sorted[0]] and [gap = best['score'] -
    results_sorted[1]['score']]; [None] stands for the [IndexError] of a
    ranked list with fewer than two entries. *)
Definition decision (ranked : list result) : option (result * Q * confidence) :=
  match ranked with
  | best :: second :: _ =>
      let gap := (score best - score second)%Q in
      Some (best, gap, confidence_of gap)
  | _ => None
  end.

(** ** Vocabulary of the statements *)

(** The value of the chi-squared statistic, as a function (the test never
    raises, see [chi_squared_test_value]). *)
Definition chi_squared_value {U : PyStr} (t language : pystr) : Q :=
  match chi_squared_test t language with
  | Ok v => v
  | Raise _ => 0%Q
  end.

(** The state [(best_shift, best_chi2)] of the shift finder after the
    shifts [0 .. n-1], for the statistic [f]: the best shift is the first
    minimiser among them. *)
Definition first_minimizer (f : Z → Q) (n : Z) (st : Z * option Q) : Prop :=
  0 <= st.1 < n ∧ st.2 = Some (f st.1) ∧
  ∀ j, 0 <= j < n → (f st.1 <= f j)%Q ∧ (j < st.1 → (f st.1 < f j)%Q).

(** Ranked before, for a key [f] and an input order [R]: a greater key, or
    the same key and earlier in the input. *)
Definition ranks_before {A} (f : A → Q) (R : A → A → Prop) (x y : A) : Prop :=
  (f y < f x)%Q ∨ ((f x == f y)%Q ∧ R x y).

(** The (shift, language) pairs in the order the loops of [main] visit
    them. *)
Definition enumeration : list (Z * pystr) :=
  seqZ 1 25 ≫= λ k, [(k, str "fr"); (k, str "en")].

(** Earlier in the enumeration: a lower shift, or the same shift with
    ["fr"] against ["en"]. *)
Definition enumerated_before (a b : Z * pystr) : Prop :=
  a.1 < b.1 ∨ (a.1 = b.1 ∧ a.2 = str "fr" ∧ b.2 = str "en").

#[export] Instance enumerated_before_dec a b : Decision (enumerated_before a b).
Proof. unfold enumerated_before. apply _. Defined.

Definition tag (r : result) : Z * pystr := (key r, language r).

(** A text whose alphabetic characters are all ASCII letters. *)
Definition ascii_letters_only {U : PyStr} (t : pystr) : Prop :=
  Forall (λ c, isalpha c = true → is_ascii_letter c = true) t.

(** The number of occurrences of [x] in [l]. *)
Definition occurrences (l : list pystr) (x : pystr) : Z :=
  len (filter (λ y, y = x) l).

(** A result of the analysis of the given candidates: a candidate's shift
    and plaintext, one of the two languages, a score in [0, 100]. *)
Definition well_formed_for (candidates : list (Z * pystr)) (r : result) : Prop :=
  (key r, plaintext r) ∈ candidates ∧
  (language r = str "fr" ∨ language r = str "en") ∧
  (0 <= score r <= 100)%Q.

(** ** Proof automation *)

(** Case analysis on every integer comparison of the goal. *)
Ltac zcases :=
  repeat match goal with
    | |- context [?a <=? ?b] => destruct (Z.leb_spec a b)
    | |- context [?a <? ?b] => destruct (Z.ltb_spec a b)
    | |- context [?a =? ?b] => destruct (Z.eqb_spec a b)
    end;
  simpl; try reflexivity; try discriminate; try lia.

(** Division by a literal, as the multiplication that [lra] reads. *)
Ltac qdiv_const :=
  unfold Qdiv;
  repeat match goal with
    | |- context [Qinv ?c] =>
        let c' := eval vm_compute in (Qinv c) in change (Qinv c) with c'
    end.

(** * Properties *)

(** ** The interpreter's tables on Latin-1 satisfy the ASCII laws *)

Lemma latin1_lower_ascii (s : pystr) :
  Forall (λ c, 0 <= c < 128) s → Latin1.lower s = ascii_lower <$> s.
Proof.
  induction 1 as [|c s Hc _ IH]; [done|].
  unfold Latin1.lower in *. cbn [mbind list_bind]. rewrite IH.
  cbn [fmap list_fmap app]. f_equal.
  unfold Latin1.lower1, Latin1.isupper, Latin1.in_range, ascii_lower,
    is_ascii_upper.
  zcases.
Qed.

#[export] Instance latin1_laws : PyStrLaws latin1.
Proof.
  split.
  - intros c Hc. cbn. unfold Latin1.isalpha, Latin1.in_range, is_ascii_letter,
      is_ascii_upper, is_ascii_lower. zcases.
  - intros c Hc. cbn. unfold Latin1.isupper, Latin1.in_range, is_ascii_upper.
    zcases.
  - exact latin1_lower_ascii.
Qed.

(** ** crypto/caesar.py *)

Section CaesarFacts.
Context {U : PyStr}.

Lemma foldl_cons_eq {A B} (f : A → B → A) (a : A) (x : B) (l : list B) :
  foldl f a (x :: l) = foldl f (f a x) l.
Proof. reflexivity. Qed.

Lemma foldl_snoc_map {A B} (f : A → B) (acc : list B) (l : list A) :
  foldl (λ r x, r ++ [f x]) acc l = acc ++ (f <$> l).
Proof.
  revert acc. induction l as [|x l IH]; intros acc; simpl.
  - by rewrite app_nil_r.
  - rewrite IH. by rewrite <- app_assoc.
Qed.

(** The accumulating loop is a character-wise map. *)
Lemma caesar_encrypt_map (t : pystr) (k : Z) :
  caesar_encrypt t k = encrypt_char k <$> t.
Proof. unfold caesar_encrypt. by rewrite foldl_snoc_map. Qed.

(** The argument of [chr] is always a valid code point (an ASCII
    letter), so [chr] cannot raise. *)
Lemma encrypt_char_alpha_range (k c : Z) :
  isalpha c = true → 65 <= encrypt_char k c <= 122.
Proof.
  intros Ha. unfold encrypt_char, ord, chr. rewrite Ha.
  destruct (isupper c);
    match goal with |- context [?x `mod` 26] =>
      pose proof (Z.mod_pos_bound x 26) end; lia.
Qed.

Lemma encrypt_char_mod (k c : Z) :
  encrypt_char k c = encrypt_char (k `mod` 26) c.
Proof.
  unfold encrypt_char. destruct (isalpha c); [|done].
  by rewrite Zplus_mod_idemp_r.
Qed.

Lemma caesar_bruteforce_map (c : pystr) :
  caesar_bruteforce c = (λ k, (k, caesar_decrypt c k)) <$> seqZ 1 25.
Proof. unfold caesar_bruteforce, range. by rewrite foldl_snoc_map. Qed.

(** Enumeration: 25 entries, the one at index [i] is for shift [i + 1]. *)
Lemma caesar_bruteforce_enumerates (c : pystr) :
  length (caesar_bruteforce c) = 25%nat ∧
  ∀ k, 1 <= k <= 25 →
    caesar_bruteforce c !! Z.to_nat (k - 1) = Some (k, caesar_decrypt c k).
Proof.
  rewrite caesar_bruteforce_map. split.
  - by rewrite length_fmap, length_seqZ.
  - intros k Hk. rewrite list_lookup_fmap.
    rewrite (lookup_seqZ_lt 1 25 (Z.to_nat (k - 1))) by lia.
    replace (1 + Z.of_nat (Z.to_nat (k - 1))) with k by lia. done.
Qed.

Context {L : PyStrLaws U}.

Lemma ascii_letter_range (c : Z) : is_ascii_letter c = true → 0 <= c < 128.
Proof.
  unfold is_ascii_letter, is_ascii_upper, is_ascii_lower. intros H.
  apply orb_true_iff in H as [H|H]; apply andb_true_iff in H as [H1 H2];
    lia.
Qed.

(** Decrypting undoes encrypting on a character that is not a letter
    outside ASCII. *)
Lemma encrypt_char_inverse (k c : Z) :
  (isalpha c = true → is_ascii_letter c = true) →
  encrypt_char (- k) (encrypt_char k c) = c.
Proof.
  intros Hc. destruct (isalpha c) eqn:Ha.
  - specialize (Hc eq_refl). pose proof (ascii_letter_range c Hc) as Hr.
    pose proof (isupper_ascii c Hr) as Hu.
    pose proof (encrypt_char_alpha_range k c Ha) as He.
    unfold encrypt_char in *. rewrite Ha in *. unfold ord, chr in *.
    rewrite Hu in *. unfold is_ascii_letter, is_ascii_lower in Hc.
    set (base := if is_ascii_upper c then 65 else 97) in *.
    set (e := (c - base + k) `mod` 26 + base) in *.
    assert (Hb : 0 <= e - base < 26)
      by (subst e; pose proof (Z.mod_pos_bound (c - base + k) 26); lia).
    assert (Hcb : 0 <= c - base < 26).
    { subst base. unfold is_ascii_upper in *.
      destruct (65 <=? c) eqn:?, (c <=? 90) eqn:?, (97 <=? c) eqn:?,
        (c <=? 122) eqn:?; simpl in *; try discriminate; lia. }
    assert (Hae : isalpha e = true).
    { rewrite isalpha_ascii by lia. unfold is_ascii_letter, is_ascii_upper,
        is_ascii_lower. subst base. destruct (is_ascii_upper c); 
        apply orb_true_iff; [left|right]; apply andb_true_iff; lia. }
    assert (Hue : isupper e = is_ascii_upper c).
    { rewrite isupper_ascii by lia. subst base. unfold is_ascii_upper at 1.
      destruct (is_ascii_upper c); [apply andb_true_iff|apply andb_false_iff];
        lia. }
    rewrite Hae, Hue. fold base.
    replace (e - base + - k) with ((c - base + k) `mod` 26 - k) by (subst e; lia).
    rewrite Zminus_mod_idemp_l.
    replace (c - base + k - k) with (c - base) by lia.
    rewrite Z.mod_small; lia.
  - unfold encrypt_char. by rewrite Ha, Ha.
Qed.

(** Round trip on texts whose letters are all ASCII letters. *)
Lemma caesar_roundtrip_ascii (t : pystr) (k : Z) :
  Forall (λ c, isalpha c = true → is_ascii_letter c = true) t →
  caesar_decrypt (caesar_encrypt t k) k = t.
Proof.
  intros Ht. unfold caesar_decrypt. rewrite !caesar_encrypt_map.
  rewrite <- list_fmap_compose.
  induction Ht as [|c t Hc _ IH]; [done|].
  cbn [fmap list_fmap compose]. rewrite encrypt_char_inverse by done.
  f_equal. exact IH.
Qed.
End CaesarFacts.

(** C8 (key periodicity): for every text [t] and every integer [k],
    negative or beyond 25 included, [caesar_encrypt t k] equals
    [caesar_encrypt t (k mod 26)]; in particular the keys 29 and 3 encrypt
    alike. *)
Theorem caesar_encrypt_key_periodic {U : PyStr} (t : pystr) (k : Z) :
  caesar_encrypt t k = caesar_encrypt t (k `mod` 26) ∧
  caesar_encrypt t 29 = caesar_encrypt t 3.
Proof.
  split.
  - rewrite !caesar_encrypt_map. apply list_fmap_ext. intros _ c _.
    apply encrypt_char_mod.
  - rewrite !caesar_encrypt_map. apply list_fmap_ext. intros _ c _.
    by rewrite (encrypt_char_mod 29).
Qed.

(** C9 (length preservation): the output of [caesar_encrypt t k] has the
    length of [t], and its character at each position is the image of the
    character of [t] at that position. *)
Theorem caesar_encrypt_length {U : PyStr} (t : pystr) (k : Z) :
  length (caesar_encrypt t k) = length t ∧
  ∀ i, caesar_encrypt t k !! i = encrypt_char k <$> (t !! i).
Proof.
  rewrite caesar_encrypt_map. split.
  - apply length_fmap.
  - intros i. apply list_lookup_fmap.
Qed.

(** C2 (round trip), at the failing input: U+00E9 (e acute) is alphabetic
    and not upper case for the interpreter, so the shift-1 encryption of the
    one-character text maps it to the ASCII letter h, and decrypting with the
    same shift returns g, not the text that was encrypted. *)
Theorem caesar_roundtrip_fails_on_accent {U : PyStr} {L : PyStrLaws U} :
  isalpha 233 = true → isupper 233 = false →
  caesar_encrypt [233] 1 = str "h" ∧
  caesar_decrypt (caesar_encrypt [233] 1) 1 = str "g" ∧
  caesar_decrypt (caesar_encrypt [233] 1) 1 ≠ [233].
Proof.
  intros Ha Hu.
  assert (He : caesar_encrypt [233] 1 = str "h").
  { rewrite caesar_encrypt_map. cbn [fmap list_fmap]. unfold encrypt_char.
    by rewrite Ha, Hu. }
  assert (Hd : caesar_decrypt (str "h") 1 = str "g").
  { unfold caesar_decrypt. rewrite caesar_encrypt_map.
    change (str "h") with [104]. cbn [fmap list_fmap]. unfold encrypt_char.
    rewrite (isalpha_ascii 104), (isupper_ascii 104) by lia. reflexivity. }
  rewrite He, Hd. repeat split. discriminate.
Qed.

Lemma caesar_roundtrip_fails_on_accent_witness :
  @caesar_encrypt latin1 [233] 1 = str "h" ∧
  @caesar_decrypt latin1 (@caesar_encrypt latin1 [233] 1) 1 = str "g" ∧
  @caesar_decrypt latin1 (@caesar_encrypt latin1 [233] 1) 1 ≠ [233].
Proof.
  apply (@caesar_roundtrip_fails_on_accent latin1 latin1_laws); reflexivity.
Defined.

(** C1 (enumeration completeness), at the failing input: the plaintext is
    the one-character text U+00E9 and the shift is 1.  The brute force of
    its ciphertext has 25 entries; the entry for shift 1 (the first) holds
    the text g, not the plaintext. *)
Theorem caesar_bruteforce_misses_accent {U : PyStr} {L : PyStrLaws U} :
  isalpha 233 = true → isupper 233 = false →
  length (caesar_bruteforce (caesar_encrypt [233] 1)) = 25%nat ∧
  caesar_bruteforce (caesar_encrypt [233] 1) !! 0%nat = Some (1, str "g") ∧
  str "g" ≠ [233].
Proof.
  intros Ha Hu.
  destruct (caesar_bruteforce_enumerates (caesar_encrypt [233] 1)) as [Hl Hk].
  split; [exact Hl|]. split; [|discriminate].
  change 0%nat with (Z.to_nat (1 - 1)). rewrite (Hk 1) by lia. do 2 f_equal.
  unfold caesar_decrypt. rewrite !caesar_encrypt_map.
  cbn [fmap list_fmap]. unfold encrypt_char at 2. rewrite Ha, Hu.
  change (chr ((ord 233 - ord 97 + 1) `mod` 26 + ord 97)) with 104.
  unfold encrypt_char.
  rewrite (isalpha_ascii 104), (isupper_ascii 104) by lia. reflexivity.
Qed.

Lemma caesar_bruteforce_misses_accent_witness :
  length (@caesar_bruteforce latin1 (@caesar_encrypt latin1 [233] 1)) = 25%nat ∧
  @caesar_bruteforce latin1 (@caesar_encrypt latin1 [233] 1) !! 0%nat
    = Some (1, str "g") ∧
  str "g" ≠ [233].
Proof.
  apply (@caesar_bruteforce_misses_accent latin1 latin1_laws); reflexivity.
Defined.

(** ** Division and rounding *)

Lemma bind_Ok {A B} (a : A) (f : A → res B) : Ok a ≫= f = f a.
Proof. reflexivity. Qed.

Lemma py_div_nonzero (a b : Q) : ¬ (b == 0)%Q → py_div a b = Ok (a / b)%Q.
Proof.
  intros Hb. unfold py_div. destruct (Qeq_bool b 0) eqn:E; [|done].
  apply Qeq_bool_eq in E. contradiction.
Qed.

Lemma py_div_inject_Z (a : Q) (n : Z) :
  n ≠ 0 → py_div a (inject_Z n) = Ok (a / inject_Z n)%Q.
Proof.
  intros Hn. apply py_div_nonzero. unfold Qeq. simpl. lia.
Qed.

#[export] Instance round_half_even_proper : Proper (Qeq ==> eq) round_half_even.
Proof.
  intros x y H. unfold round_half_even. rewrite (Qfloor_comp _ _ H).
  assert (E : (x - inject_Z (Qfloor y) ?= 1 # 2)%Q
              = (y - inject_Z (Qfloor y) ?= 1 # 2)%Q)
    by (apply Qcompare_comp; [by rewrite H|reflexivity]).
  by rewrite E.
Qed.

#[export] Instance round_proper : Proper (Qeq ==> eq ==> Qeq) round.
Proof.
  intros x y H n ? <-. unfold round.
  assert (E : (x * inject_Z (10 ^ Z.of_nat n) == y * inject_Z (10 ^ Z.of_nat n))%Q)
    by (by rewrite H).
  by rewrite (round_half_even_proper _ _ E).
Qed.

Lemma round_zero (n : nat) : (round 0 n == 0)%Q.
Proof.
  unfold round.
  rewrite (round_half_even_proper _ 0%Q (Qmult_0_l _)).
  change (round_half_even 0) with 0. unfold Qdiv. apply Qmult_0_l.
Qed.

Lemma len_nonneg {A} (l : list A) : 0 <= len l.
Proof. unfold len. lia. Qed.

(** ** Totality of the feature extractors (the zero-division guards) *)

Section Guards.
Context {U : PyStr}.

Lemma stopwords_stats_total (t : pystr) (S : gset pystr) :
  ∃ n_stop n_total pct,
    stopwords_stats t S = Ok (n_stop, n_total, pct) ∧
    (n_total = 0 → (pct == 0)%Q).
Proof.
  unfold stopwords_stats.
  set (nt := len (tokenize t)). set (ns := len (filter _ (tokenize t))).
  destruct (Z.ltb_spec 0 nt) as [Hpos|Hz].
  - rewrite py_div_inject_Z by lia. cbn [mbind res_bind].
    eexists _, _, _. split; [reflexivity|]. lia.
  - cbn [mbind res_bind]. eexists _, _, _. split; [reflexivity|].
    intros _. apply round_zero.
Qed.

Lemma index_of_coincidence_total (t : pystr) :
  ∃ v, index_of_coincidence t = Ok v.
Proof.
  unfold index_of_coincidence. set (N := len (letters_of t)).
  destruct (Z.leb_spec N 1); [by eexists|].
  rewrite py_div_inject_Z by nia. cbn [mbind res_bind]. by eexists.
Qed.

Lemma index_of_coincidence_few_letters (t : pystr) :
  (length (filter (λ c, isalpha c = true) t) ≤ 1)%nat →
  index_of_coincidence t = Ok 0%Q.
Proof.
  intros H. unfold index_of_coincidence, letters_of, len.
  rewrite length_fmap.
  destruct (Z.leb_spec (Z.of_nat (length (filter (λ c, isalpha c = true) t))) 1);
    [done|lia].
Qed.

Lemma alpha_ratio_total (t : pystr) : ∃ v, alpha_ratio t = Ok v.
Proof.
  unfold alpha_ratio. destruct (Z.ltb_spec 0 (len t)); [|by eexists].
  rewrite py_div_inject_Z by lia. cbn [mbind res_bind]. by eexists.
Qed.

Lemma avg_word_length_total (t : pystr) : ∃ v, avg_word_length t = Ok v.
Proof.
  unfold avg_word_length. destruct (tokenize t) as [|w ws] eqn:E;
    [by eexists|].
  rewrite py_div_inject_Z by (unfold len; simpl; lia).
  cbn [mbind res_bind]. by eexists.
Qed.
End Guards.

(** C5 (zero-division guards): the stopword statistics of the empty text
    are (0, 0, 0) for every stopword set, and for every text a zero token
    count gives a zero percentage; the index of coincidence is 0.0 when the
    text has at most one alphabetic character; the alpha ratio of the empty
    text is 0; and the three operations return a value (they do not raise)
    on every text. *)
Theorem zero_division_guards {U : PyStr} {L : PyStrLaws U} :
  (∀ S, ∃ pct, stopwords_stats [] S = Ok (0, 0, pct) ∧ (pct == 0)%Q) ∧
  (∀ t S, ∃ n_stop n_total pct,
     stopwords_stats t S = Ok (n_stop, n_total, pct) ∧
     (n_total = 0 → (pct == 0)%Q)) ∧
  (∀ t, (length (filter (λ c, isalpha c = true) t) ≤ 1)%nat →
     index_of_coincidence t = Ok 0%Q) ∧
  (∀ t, ∃ v, index_of_coincidence t = Ok v) ∧
  alpha_ratio [] = Ok 0%Q ∧
  (∀ t, ∃ v, alpha_ratio t = Ok v).
Proof.
  repeat split.
  - intros S. exists (round 0 2). split; [|apply round_zero].
    unfold stopwords_stats, tokenize. rewrite (lower_ascii []) by constructor.
    reflexivity.
  - intros t S. apply stopwords_stats_total.
  - apply index_of_coincidence_few_letters.
  - apply index_of_coincidence_total.
  - apply alpha_ratio_total.
Qed.

Lemma zero_division_guards_witness :
  (∀ S, ∃ pct, @stopwords_stats latin1 [] S = Ok (0, 0, pct) ∧ (pct == 0)%Q) ∧
  (∀ t S, ∃ n_stop n_total pct,
     @stopwords_stats latin1 t S = Ok (n_stop, n_total, pct) ∧
     (n_total = 0 → (pct == 0)%Q)) ∧
  (∀ t, (length (filter (λ c, @isalpha latin1 c = true) t) ≤ 1)%nat →
     @index_of_coincidence latin1 t = Ok 0%Q) ∧
  (∀ t, ∃ v, @index_of_coincidence latin1 t = Ok v) ∧
  @alpha_ratio latin1 [] = Ok 0%Q ∧
  (∀ t, ∃ v, @alpha_ratio latin1 t = Ok v).
Proof. exact (@zero_division_guards latin1 latin1_laws). Defined.

(** ** Rounding stays between integer bounds *)

Lemma round_half_even_between (a b : Z) (x : Q) :
  (inject_Z a <= x)%Q → (x <= inject_Z b)%Q →
  a <= round_half_even x <= b.
Proof.
  intros Ha Hb.
  pose proof (Qfloor_le x) as Hfl.
  assert (Hfa : a <= Qfloor x)
    by (rewrite <- (Qfloor_Z a); by apply Qfloor_resp_le).
  assert (Hfb : Qfloor x <= b)
    by (rewrite <- (Qfloor_Z b); by apply Qfloor_resp_le).
  unfold round_half_even.
  destruct (Qcompare_spec (x - inject_Z (Qfloor x)) (1 # 2)) as [E|E|E].
  - destruct (Z.even (Qfloor x)); [lia|].
    destruct (Z.eq_dec (Qfloor x) b) as [Hfx|]; [|lia].
    exfalso. rewrite Hfx in E. lra.
  - lia.
  - destruct (Z.eq_dec (Qfloor x) b) as [Hfx|]; [|lia].
    exfalso. rewrite Hfx in E. lra.
Qed.

Lemma round_between (a b : Z) (x : Q) (n : nat) :
  (inject_Z a <= x)%Q → (x <= inject_Z b)%Q →
  (inject_Z a <= round x n <= inject_Z b)%Q.
Proof.
  intros Ha Hb. unfold round.
  set (p := 10 ^ Z.of_nat n).
  assert (Hp : 0 < p) by (subst p; apply Z.pow_pos_nonneg; lia).
  assert (Hq : (0 < inject_Z p)%Q) by (unfold Qlt; simpl; lia).
  destruct (round_half_even_between (a * p) (b * p) (x * inject_Z p)) as [H1 H2].
  - rewrite inject_Z_mult. apply Qmult_le_compat_r; lra.
  - rewrite inject_Z_mult. apply Qmult_le_compat_r; lra.
  - split.
    + apply Qle_shift_div_l; [done|]. rewrite <- inject_Z_mult.
      rewrite <- Zle_Qle. lia.
    + apply Qle_shift_div_r; [done|]. rewrite <- inject_Z_mult.
      rewrite <- Zle_Qle. lia.
Qed.

(** ** The composite score *)

Lemma score_stopwords_range (pct_stop : Q) :
  (0 <= pct_stop)%Q → (0 <= score_stopwords pct_stop <= 1)%Q.
Proof.
  intros H. unfold score_stopwords. qdiv_const.
  destruct (Q.min_spec (pct_stop * (1 # 50)) 1) as [[H1 ->]|[H1 ->]]; lra.
Qed.

Lemma score_chi2_range (c : Q) : (0 <= c)%Q → (0 <= score_chi2 c <= 1)%Q.
Proof.
  intros H. unfold score_chi2. qdiv_const.
  destruct (Q.max_spec 0 (1 - c * (1 # 200))) as [[H1 ->]|[H1 ->]]; lra.
Qed.

Lemma score_ic_range (i : Q) : (0 <= i)%Q → (0 <= score_ic i <= 1)%Q.
Proof.
  intros H. unfold score_ic. qdiv_const.
  destruct (Q.min_spec (i * (1000 # 70)) 1) as [[H1 ->]|[H1 ->]]; lra.
Qed.

Lemma score_avg_len_range (a : Q) : (0 <= score_avg_len a <= 1)%Q.
Proof.
  unfold score_avg_len. qdiv_const. pose proof (Qabs_nonneg (5 - a)).
  destruct (Q.max_spec 0 (1 - Qabs (5 - a) * (1 # 5))) as [[H1 ->]|[H1 ->]]; lra.
Qed.

Lemma score_alpha_range (r : Q) :
  (0 <= r <= 100)%Q → (0 <= score_alpha r <= 1)%Q.
Proof. intros H. unfold score_alpha. qdiv_const. lra. Qed.





(** ** crypto/frequency.py: the counter and the frequency dict *)

Lemma Counter_foldl (l : list pystr) (m : gmap pystr Z) (x : pystr) :
  default 0 (foldl (λ count y, <[y := default 0 (count !! y) + 1]> count) m l !! x)
  = default 0 (m !! x) + len (filter (λ y, y = x) l).
Proof.
  revert m. induction l as [|y l IH]; intros m; cbn [foldl].
  - unfold len. simpl. lia.
  - rewrite IH. rewrite filter_cons. unfold len.
    destruct (decide (y = x)) as [->|Hne].
    + rewrite lookup_insert_eq. simpl. lia.
    + rewrite lookup_insert_ne by done. lia.
Qed.

(** [count[x]] is the number of occurrences of [x]. *)
Lemma Counter_get (l : list pystr) (x : pystr) :
  counter_get (Counter l) x = len (filter (λ y, y = x) l).
Proof.
  unfold counter_get, Counter. rewrite Counter_foldl.
  by rewrite lookup_empty.
Qed.

(** The dict comprehension of [letter_frequency], once the total is known
    to be non-zero. *)
Lemma frequency_dict_ok (g : pystr → Z) (total : Z) (ls : list pystr)
    (d : gmap pystr Q) :
  total ≠ 0 →
  foldl (λ acc l,
           d ← acc;
           q ← py_div (inject_Z (g l)) (inject_Z total);
           Ok (<[l := round (q * 100) 2]> d))
        (Ok d) ls
  = Ok (foldl (λ d l,
                 <[l := round (inject_Z (g l) / inject_Z total * 100) 2]> d)
              d ls).
Proof.
  intros Ht. revert d. induction ls as [|l ls IH]; intros d; [done|].
  cbn [foldl]. cbn [mbind res_bind]. rewrite py_div_inject_Z by done.
  apply IH.
Qed.

Lemma foldl_insert_lookup {V} (v : pystr → V) (ls : list pystr)
    (d : gmap pystr V) (x : pystr) :
  foldl (λ d l, <[l := v l]> d) d ls !! x
  = if decide (x ∈ ls) then Some (v x) else d !! x.
Proof.
  revert d. induction ls as [|l ls IH]; intros d; cbn [foldl].
  - destruct (decide (x ∈ [])) as [H|]; [by apply elem_of_nil in H|done].
  - rewrite IH. destruct (decide (x ∈ ls)) as [Hin|Hnin].
    + rewrite decide_True by (by right). done.
    + destruct (decide (x = l)) as [->|Hne].
      * rewrite decide_True by (by left). by rewrite lookup_insert_eq.
      * rewrite decide_False by (by intros [?|?]%elem_of_cons).
        by rewrite lookup_insert_ne.
Qed.



Section FrequencyFacts.
Context {U : PyStr}.

Lemma letters_of_length (t : pystr) :
  length (letters_of t) = length (filter (λ c, isalpha c = true) t).
Proof. unfold letters_of. apply length_fmap. Qed.

Lemma letter_frequency_empty (t : pystr) :
  filter (λ c, isalpha c = true) t = [] → letter_frequency t = Ok ∅.
Proof. intros H. unfold letter_frequency, letters_of. by rewrite H. Qed.

Lemma letter_frequency_letters (t : pystr) :
  filter (λ c, isalpha c = true) t ≠ [] →
  letter_frequency t
  = Ok (foldl (λ d l,
                 <[l := round (inject_Z (counter_get (Counter (letters_of t)) l)
                               / inject_Z (len (letters_of t)) * 100) 2]> d)
              ∅ alphabet).
Proof.
  intros H. unfold letter_frequency.
  assert (Hn : len (letters_of t) ≠ 0).
  { unfold len. rewrite letters_of_length.
    destruct (filter _ t); [done|simpl; lia]. }
  destruct (Z.eqb_spec (len (letters_of t)) 0) as [E|_]; [done|].
  by apply frequency_dict_ok.
Qed.

Lemma letter_frequency_total (t : pystr) : ∃ m, letter_frequency t = Ok m.
Proof.
  destruct (filter (λ c, isalpha c = true) t) eqn:E.
  - exists ∅. by apply letter_frequency_empty.
  - eexists. apply letter_frequency_letters. by rewrite E.
Qed.
End FrequencyFacts.

Lemma filter_fmap_length {A B} (f : A → B) (P : B → Prop)
    `{∀ b, Decision (P b)} (l : list A) :
  length (filter P (f <$> l)) = length (filter (λ a, P (f a)) l).
Proof.
  induction l as [|a l IH]; [done|].
  cbn [fmap list_fmap]. rewrite !filter_cons.
  destruct (decide (P (f a))); simpl; by rewrite IH.
Qed.



(** ** crypto/frequency.py: chi-squared and the shift finder *)

Lemma Qltb_spec (x y : Q) : reflect (x < y)%Q (Qltb x y).
Proof.
  unfold Qltb. destruct (Qle_bool y x) eqn:E; constructor.
  - apply Qle_bool_iff in E. by apply Qle_not_lt.
  - apply Qnot_le_lt. intros H. apply Qle_bool_iff in H. congruence.
Qed.

(** The accumulation of [chi_squared_test] never divides by zero: the
    division is guarded by [expected > 0]. *)
Lemma chi_squared_sum_total (freq_obs : gmap pystr Q)
    (freq_ref : list (pystr * Q)) (acc : Q) :
  ∃ v,
    foldl (λ acc item,
             chi2 ← acc;
             let observed := default 0%Q (freq_obs !! item.1) in
             let expected := item.2 in
             if Qltb 0 expected
             then q ← py_div ((observed - expected) ^ 2) expected;
                  Ok (chi2 + q)%Q
             else Ok chi2)
          (Ok acc) freq_ref = Ok v.
Proof.
  revert acc. induction freq_ref as [|[l e] ref IH]; intros acc;
    [by eexists|].
  cbn [foldl]. cbn [mbind res_bind fst snd].
  destruct (Qltb_spec 0 e) as [He|He].
  - rewrite py_div_nonzero by (intros E; rewrite E in He; by apply Qlt_irrefl in He).
    cbn [mbind res_bind]. apply IH.
  - apply IH.
Qed.

Section VigenereFacts.
Context {U : PyStr}.

Lemma chi_squared_test_total (t language : pystr) :
  ∃ v, chi_squared_test t language = Ok v.
Proof.
  unfold chi_squared_test. cbv zeta.
  destruct (letter_frequency_total t) as [m ->]. rewrite bind_Ok.
  destruct (chi_squared_sum_total m
    (if decide (language = str "fr") then FRENCH_FREQ else ENGLISH_FREQ) 0)
    as [v Hv].
  cbv zeta in Hv. rewrite Hv. by eexists.
Qed.

Lemma chi_squared_test_value (t language : pystr) :
  chi_squared_test t language = Ok (chi_squared_value t language).
Proof.
  unfold chi_squared_value.
  by destruct (chi_squared_test_total t language) as [v ->].
Qed.

(** The inline decryption of the shift finder is [caesar_decrypt]. *)
Lemma shift_back_caesar_decrypt (t : pystr) (shift : Z) :
  shift_back t shift = caesar_decrypt t shift.
Proof.
  unfold caesar_decrypt. rewrite caesar_encrypt_map. unfold shift_back.
  match goal with
  | |- foldl ?F [] t = _ =>
      enough (H : ∀ acc, foldl F acc t = acc ++ (encrypt_char (- shift) <$> t))
        by apply (H [])
  end.
  induction t as [|c t IH]; intros acc.
  - by rewrite app_nil_r.
  - cbn [foldl fmap list_fmap].
    replace (acc ++ encrypt_char (- shift) c :: (encrypt_char (- shift) <$> t))
      with ((acc ++ [encrypt_char (- shift) c]) ++ (encrypt_char (- shift) <$> t))
      by (by rewrite <- app_assoc).
    rewrite <- IH. f_equal. unfold encrypt_char.
    destruct (isalpha c); [|done].
    by replace (ord c - (if isupper c then ord 65 else ord 97) - shift)
      with (ord c - (if isupper c then ord 65 else ord 97) + - shift) by lia.
Qed.

Lemma vigenere_loop (subtext language : pystr) (n : nat) :
  let f := λ s, chi_squared_value (shift_back subtext s) language in
  ∃ st,
    foldl (λ acc shift, st ← acc; vigenere_step subtext language st shift)
          (Ok (0, None)) (seqZ 0 (Z.of_nat n)) = Ok st ∧
    match n with
    | O => st = (0, None)
    | S _ => first_minimizer f (Z.of_nat n) st
    end.
Proof.
  intros f. induction n as [|n (st & Hfold & Hst)]; [by eexists|].
  replace (Z.of_nat (S n)) with (Z.of_nat n + 1) by lia.
  rewrite seqZ_app by lia. rewrite foldl_app, Hfold.
  change (seqZ (0 + Z.of_nat n) 1) with [0 + Z.of_nat n].
  cbn [foldl]. cbn [mbind res_bind]. unfold vigenere_step.
  rewrite chi_squared_test_value. cbn [mbind res_bind].
  rewrite Z.add_0_l. fold (f (Z.of_nat n)).
  destruct n as [|n].
  - subst st. cbn [snd lt_inf]. eexists. split; [reflexivity|].
    split; [cbn [fst]; lia|]. split; [reflexivity|].
    intros j Hj. cbn [fst]. assert (j = 0) as -> by lia.
    split; [apply Qle_refl|lia].
  - destruct Hst as (Hr & Hb & Hmin). destruct st as [best b].
    cbn [fst snd] in *. subst b. cbn [lt_inf].
    destruct (Qltb_spec (f (Z.of_nat (S n))) (f best)) as [Hlt|Hge].
    + eexists. split; [reflexivity|].
      split; [cbn [fst]; lia|]. split; [reflexivity|].
      intros j Hj. cbn [fst].
      destruct (Z.eq_dec j (Z.of_nat (S n))) as [->|Hne].
      * split; [apply Qle_refl|lia].
      * destruct (Hmin j) as [Hle _]; [lia|].
        assert (f (Z.of_nat (S n)) < f j)%Q by (eapply Qlt_le_trans; eauto).
        split; [by apply Qlt_le_weak|done].
    + apply Qnot_lt_le in Hge.
      eexists. split; [reflexivity|].
      split; [cbn [fst]; lia|]. split; [reflexivity|].
      intros j Hj. cbn [fst].
      destruct (Z.eq_dec j (Z.of_nat (S n))) as [->|Hne].
      * split; [done|lia].
      * apply Hmin. lia.
Qed.
End VigenereFacts.

(** C10 (the Vigenere shift finder): for every subtext and language the
    function returns one lowercase letter, [chr (ord 'a' + s)] with [s] in
    0..25, where [s] is the first shift whose decryption of the subtext,
    [caesar_decrypt subtext s], has the least chi-squared statistic for that
    language: no shift in 0..25 has a smaller statistic and every smaller
    shift has a strictly greater one. *)
Theorem frequency_attack_vigenere_first_minimizer {U : PyStr}
    (subtext language : pystr) :
  ∃ s c,
    frequency_attack_vigenere subtext language = Ok (chr (ord 97 + s)) ∧
    0 <= s <= 25 ∧ 97 <= chr (ord 97 + s) <= 122 ∧
    chi_squared_test (caesar_decrypt subtext s) language = Ok c ∧
    ∀ j, 0 <= j <= 25 →
      ∃ cj, chi_squared_test (caesar_decrypt subtext j) language = Ok cj ∧
            (c <= cj)%Q ∧ (j < s → (c < cj)%Q).
Proof.
  destruct (vigenere_loop subtext language 26) as (st & Hfold & Hst).
  destruct Hst as (Hr & _ & Hmin).
  exists st.1, (chi_squared_value (shift_back subtext st.1) language).
  split; [|split; [|split; [|split]]].
  - unfold frequency_attack_vigenere, range.
    change (26 - 0) with (Z.of_nat 26). by rewrite Hfold.
  - lia.
  - unfold chr, ord. lia.
  - rewrite <- shift_back_caesar_decrypt. apply chi_squared_test_value.
  - intros j Hj. eexists. split.
    + rewrite <- shift_back_caesar_decrypt. apply chi_squared_test_value.
    + apply Hmin. lia.
Qed.

(** ** The end-to-end scenario *)

Section AsciiTexts.
Context {U : PyStr} {L : PyStrLaws U}.

(** On ASCII characters every interpreter satisfying the laws agrees with
    the Latin-1 tables, so ASCII texts can be evaluated. *)
Lemma encrypt_char_ascii (k c : Z) :
  0 <= c < 128 → @encrypt_char U k c = @encrypt_char latin1 k c.
Proof.
  intros Hc. unfold encrypt_char.
  rewrite (@isalpha_ascii U L c Hc), (@isupper_ascii U L c Hc).
  by rewrite (@isalpha_ascii latin1 _ c Hc), (@isupper_ascii latin1 _ c Hc).
Qed.

Lemma caesar_encrypt_ascii (t : pystr) (k : Z) :
  Forall (λ c, 0 <= c < 128) t →
  @caesar_encrypt U t k = @caesar_encrypt latin1 t k.
Proof.
  intros Ht. rewrite !caesar_encrypt_map.
  induction Ht as [|c t Hc _ IH]; [done|].
  cbn [fmap list_fmap]. by rewrite encrypt_char_ascii, IH.
Qed.

Lemma tokenize_ascii (t : pystr) :
  Forall (λ c, 0 <= c < 128) t →
  tokenize t = findall_letters [] (ascii_lower <$> t).
Proof. intros Ht. unfold tokenize. by rewrite lower_ascii. Qed.
End AsciiTexts.

(** Decides that a text is ASCII. *)
Lemma ascii_text_check (t : pystr) :
  forallb (λ c, (0 <=? c) && (c <? 128)) t = true →
  Forall (λ c, 0 <= c < 128) t.
Proof.
  intros H. apply Forall_forall. intros c Hc.
  rewrite forallb_forall in H. specialize (H c).
  rewrite <- list_elem_of_In in H. specialize (H Hc).
  apply andb_true_iff in H as [H1 H2]. lia.
Qed.

(** C6, the claim as stated fails twice.  The shift-7 encryption of the
    sentence is "Aol xbpjr iyvdu mve", which differs from the ciphertext the
    claim gives; and for either ciphertext the entry of the brute force at
    shift 19 is a text without the word "the": against the stopword set
    that holds just "the" its stopword percentage is 0, it is not greater
    than 0. *)
Lemma quick_brown_fox_counterexample :
  @caesar_encrypt latin1 (str "The quick brown fox") 7
    = str "Aol xbpjr iyvdu mve" ∧
  str "Aol xbpjr iyvdu mve" ≠ str "Aol xburr iyvdu mve" ∧
  @caesar_bruteforce latin1 (str "Aol xbpjr iyvdu mve") !! 18%nat
    = Some (19, str "Hvs eiwqy pfckb tcl") ∧
  @stopwords_stats latin1 (str "Hvs eiwqy pfckb tcl") {[str "the"]}
    = Ok (0, 4, round 0 2) ∧
  @caesar_bruteforce latin1 (str "Aol xburr iyvdu mve") !! 18%nat
    = Some (19, str "Hvs eibyy pfckb tcl") ∧
  @stopwords_stats latin1 (str "Hvs eibyy pfckb tcl") {[str "the"]}
    = Ok (0, 4, round 0 2) ∧
  (round 0 2 == 0)%Q.
Proof.
  split; [by vm_compute|]. split; [discriminate|].
  split; [by vm_compute|]. split; [by vm_compute|].
  split; [by vm_compute|]. split; [by vm_compute|]. apply round_zero.
Qed.

(** C6, amended: the shift-7 encryption of "The quick brown fox" is
    "Aol xbpjr iyvdu mve"; the brute force of that ciphertext has at shift 7
    (the encryption shift) the entry whose plaintext is the sentence; and
    against every stopword set that contains "the" the stopword statistics
    of that plaintext count 4 tokens, at least one stopword, and a stopword
    percentage greater than 0. *)
Theorem quick_brown_fox_scenario {U : PyStr} {L : PyStrLaws U}
    (S : gset pystr) :
  str "the" ∈ S →
  caesar_encrypt (str "The quick brown fox") 7 = str "Aol xbpjr iyvdu mve" ∧
  caesar_bruteforce (str "Aol xbpjr iyvdu mve") !! 6%nat
    = Some (7, str "The quick brown fox") ∧
  ∃ n pct,
    stopwords_stats (str "The quick brown fox") S = Ok (n, 4, pct) ∧
    1 <= n ∧ (0 < pct)%Q.
Proof.
  intros Hthe. split; [|split].
  - rewrite caesar_encrypt_ascii by (by apply ascii_text_check).
    by vm_compute.
  - destruct (caesar_bruteforce_enumerates (str "Aol xbpjr iyvdu mve"))
      as [_ Hk].
    change 6%nat with (Z.to_nat (7 - 1)). rewrite (Hk 7) by lia.
    do 2 f_equal. unfold caesar_decrypt.
    rewrite caesar_encrypt_ascii by (by apply ascii_text_check).
    by vm_compute.
  - unfold stopwords_stats.
    rewrite tokenize_ascii by (by apply ascii_text_check).
    change (findall_letters [] (ascii_lower <$> str "The quick brown fox"))
      with [str "the"; str "quick"; str "brown"; str "fox"].
    rewrite (filter_cons (λ w, w ∈ S) (str "the")).
    rewrite decide_True by done.
    rewrite !filter_cons, filter_nil.
    destruct (decide (str "quick" ∈ S)), (decide (str "brown" ∈ S)),
      (decide (str "fox" ∈ S));
      (eexists _, _; split; [reflexivity|]; split; by vm_compute).
Qed.

Lemma quick_brown_fox_scenario_witness :
  @caesar_encrypt latin1 (str "The quick brown fox") 7
    = str "Aol xbpjr iyvdu mve" ∧
  @caesar_bruteforce latin1 (str "Aol xbpjr iyvdu mve") !! 6%nat
    = Some (7, str "The quick brown fox") ∧
  ∃ n pct,
    @stopwords_stats latin1 (str "The quick brown fox") {[str "the"]}
      = Ok (n, 4, pct) ∧
    1 <= n ∧ (0 < pct)%Q.
Proof.
  apply (@quick_brown_fox_scenario latin1 latin1_laws {[str "the"]}).
  by apply elem_of_singleton.
Defined.

(** ** The ranking: a stable sort in descending order *)

Section StableSort.
Context {A : Type} (f : A → Q) (R : A → A → Prop).

Lemma insert_desc_perm (x : A) (l : list A) : insert_desc f x l ≡ₚ x :: l.
Proof.
  induction l as [|y l IH]; [done|]. cbn [insert_desc].
  destruct (Qltb (f x) (f y)); [|done].
  rewrite IH. apply Permutation_swap.
Qed.

Lemma sorted_reverse_perm (l : list A) : sorted_reverse f l ≡ₚ l.
Proof.
  induction l as [|x l IH]; [done|].
  change (sorted_reverse f (x :: l))
    with (insert_desc f x (sorted_reverse f l)).
  rewrite insert_desc_perm. by constructor.
Qed.

Lemma ranks_before_key (x y : A) : ranks_before f R x y → (f y <= f x)%Q.
Proof.
  intros [H|[H _]]; [by apply Qlt_le_weak|]. rewrite H. apply Qle_refl.
Qed.

Lemma insert_desc_sorted (x : A) (l : list A) :
  Forall (R x) l →
  StronglySorted (ranks_before f R) l →
  StronglySorted (ranks_before f R) (insert_desc f x l).
Proof.
  intros Hx Hl. induction Hl as [|y l Hl IH Hy]; cbn [insert_desc].
  - repeat constructor.
  - apply Forall_cons in Hx as [Hxy Hxl].
    destruct (Qltb_spec (f x) (f y)) as [Hlt|Hge].
    + constructor; [by apply IH|].
      rewrite insert_desc_perm. constructor; [by left|done].
    + apply Qnot_lt_le in Hge.
      constructor; [by constructor|].
      assert (Hall : Forall (λ z, (f z <= f x)%Q ∧ R x z) (y :: l)).
      { constructor; [done|].
        apply Forall_forall. intros z Hz. split.
        - apply Qle_trans with (f y); [|done].
          apply ranks_before_key.
          by eapply Forall_forall in Hy.
        - by eapply Forall_forall in Hxl. }
      eapply Forall_impl; [exact Hall|].
      intros z [Hz1 Hz2]. unfold ranks_before.
      destruct (Qlt_le_dec (f z) (f x)) as [?|Hle]; [by left|].
      right. split; [by apply Qle_antisym|done].
Qed.

(** The sort ranks by key and, among equal keys, keeps the input order. *)
Lemma sorted_reverse_stable (l : list A) :
  StronglySorted R l → StronglySorted (ranks_before f R) (sorted_reverse f l).
Proof.
  induction 1 as [|x l Hl IH Hx]; [constructor|].
  change (sorted_reverse f (x :: l))
    with (insert_desc f x (sorted_reverse f l)).
  apply insert_desc_sorted; [|done].
  by rewrite sorted_reverse_perm.
Qed.
End StableSort.

Lemma StronglySorted_lookup {A} (R : A → A → Prop) (l : list A)
    (i j : nat) (x y : A) :
  StronglySorted R l → (i < j)%nat → l !! i = Some x → l !! j = Some y →
  R x y.
Proof.
  intros Hl. revert i j. induction Hl as [|z l Hl IH Hz]; intros i j Hij Hi Hj.
  - by rewrite lookup_nil in Hi.
  - destruct j as [|j]; [lia|]. cbn in Hj. destruct i as [|i].
    + cbn in Hi. injection Hi as ->.
      eapply Forall_forall in Hz; [exact Hz|].
      by eapply list_elem_of_lookup_2.
    + cbn in Hi. apply (IH i j); [lia|done..].
Qed.

Lemma StronglySorted_fmap_inv {A B} (g : A → B) (R : B → B → Prop)
    (l : list A) :
  StronglySorted R (g <$> l) → StronglySorted (λ x y, R (g x) (g y)) l.
Proof.
  induction l as [|x l IH]; intros H; [constructor|].
  cbn [fmap list_fmap] in H. inversion H as [|? ? H1 H2]; subst.
  constructor; [by apply IH|].
  rewrite Forall_fmap in H2. eapply Forall_impl; [exact H2|]. by intros y Hy.
Qed.

(** ** The analysis loop of [main] *)

Lemma enumeration_ordered : StronglySorted enumerated_before enumeration.
Proof. apply (bool_decide_unpack _). by vm_compute. Qed.

Section MainFacts.
Context {U : PyStr}.

Lemma evaluate_total (k : Z) (t lang : pystr) (S : gset pystr) :
  ∃ r, evaluate k t lang S = Ok r ∧ tag r = (k, lang) ∧ plaintext r = t.
Proof.
  unfold evaluate.
  destruct (stopwords_stats_total t S) as (ns & nt & pct & -> & _).
  rewrite bind_Ok.
  destruct (chi_squared_test_total t lang) as [c ->]. rewrite bind_Ok.
  destruct (index_of_coincidence_total t) as [i ->]. rewrite bind_Ok.
  destruct (avg_word_length_total t) as [al ->]. rewrite bind_Ok.
  destruct (alpha_ratio_total t) as [ar ->]. rewrite bind_Ok.
  eexists. split; [reflexivity|]. done.
Qed.

(** The loops append, for each candidate in turn, its French and then its
    English result. *)
Lemma analyse_loop (stop_fr stop_en : gset pystr)
    (candidates : list (Z * pystr)) (acc : list result) :
  ∃ out,
    foldl (λ acc cand,
             foldl (λ acc ls,
                      results ← acc;
                      r ← evaluate cand.1 cand.2 ls.1 ls.2;
                      Ok (results ++ [r]))
                   acc [(str "fr", stop_fr); (str "en", stop_en)])
          (Ok acc) candidates
    = Ok (acc ++ out) ∧
    tag <$> out
    = (candidates.*1 ≫= λ k, [(k, str "fr"); (k, str "en")]).
Proof.
  revert acc. induction candidates as [|[k t] cands IH]; intros acc.
  - exists []. by rewrite app_nil_r.
  - destruct (evaluate_total k t (str "fr") stop_fr) as (r1 & E1 & T1 & _).
    destruct (evaluate_total k t (str "en") stop_en) as (r2 & E2 & T2 & _).
    destruct (IH ((acc ++ [r1]) ++ [r2])) as (out & Hfold & Hout).
    exists (r1 :: r2 :: out). split.
    + replace (acc ++ r1 :: r2 :: out) with (((acc ++ [r1]) ++ [r2]) ++ out)
        by (by rewrite <- !app_assoc).
      rewrite <- Hfold. rewrite foldl_cons_eq. f_equal.
      cbn [foldl fst snd]. by rewrite bind_Ok, E1, !bind_Ok, E2, bind_Ok.
    + cbn [fmap list_fmap]. rewrite T1, T2, Hout. done.
Qed.

Lemma analyse_enumerates (c : pystr) (stop_fr stop_en : gset pystr) :
  ∃ results,
    analyse c stop_fr stop_en = Ok results ∧ tag <$> results = enumeration.
Proof.
  unfold analyse.
  destruct (analyse_loop stop_fr stop_en (caesar_bruteforce c) [])
    as (out & -> & Hout).
  exists out. split; [done|]. rewrite Hout.
  rewrite caesar_bruteforce_map, <- list_fmap_compose.
  unfold enumeration. by f_equal.
Qed.
End MainFacts.

(** C4 (tie-break stability): the analysis produces the 50 results in the
    order shift 1..25, ["fr"] then ["en"] for each shift; the ranked list is
    a rearrangement of them in descending order of score; and of two ranked
    results with the same score the one that ranks first has the lower
    shift or, at the same shift, is the ["fr"] result while the other is the
    ["en"] one. *)
Theorem ranking_ties_keep_enumeration_order {U : PyStr}
    (ciphertext : pystr) (stop_fr stop_en : gset pystr) :
  ∃ results ranked,
    analyse ciphertext stop_fr stop_en = Ok results ∧
    length results = 50%nat ∧
    (λ r, (key r, language r)) <$> results = enumeration ∧
    results_sorted ciphertext stop_fr stop_en = Ok ranked ∧
    ranked ≡ₚ results ∧
    ∀ i j r1 r2,
      (i < j)%nat → ranked !! i = Some r1 → ranked !! j = Some r2 →
      (score r2 <= score r1)%Q ∧
      ((score r1 == score r2)%Q →
       key r1 < key r2 ∨
       (key r1 = key r2 ∧ language r1 = str "fr" ∧ language r2 = str "en")).
Proof.
  destruct (analyse_enumerates ciphertext stop_fr stop_en)
    as (results & Hres & Htag).
  exists results, (sorted_reverse score results).
  split; [done|]. split.
  { rewrite <- (length_fmap tag), Htag. reflexivity. }
  split; [done|]. split.
  { unfold results_sorted. by rewrite Hres. }
  split; [apply sorted_reverse_perm|].
  intros i j r1 r2 Hij H1 H2.
  assert (Hord : StronglySorted (λ x y, enumerated_before (tag x) (tag y)) results).
  { apply StronglySorted_fmap_inv. rewrite Htag. apply enumeration_ordered. }
  apply (sorted_reverse_stable score) in Hord.
  pose proof (StronglySorted_lookup _ _ i j r1 r2 Hord Hij H1 H2) as Hr.
  split; [by eapply ranks_before_key|].
  intros Heq. destruct Hr as [Hlt|[_ Hr]].
  - rewrite Heq in Hlt. by apply Qlt_irrefl in Hlt.
  - exact Hr.
Qed.

(** * The repository's tests and docstring examples, on the embedding *)

(** [tests/test_caesar.py]: [test_encrypt_basic], [test_decrypt_basic]. *)
Example test_encrypt_basic :
  @caesar_encrypt latin1 (str "HELLO") 3 = str "KHOOR" ∧
  @caesar_decrypt latin1 (str "KHOOR") 3 = str "HELLO".
Proof. by vm_compute. Qed.

(** [test_roundtrip], key 13. *)
Example test_roundtrip :
  @caesar_decrypt latin1
    (@caesar_encrypt latin1 (str "The quick brown fox jumps over the lazy dog") 13)
    13
  = str "The quick brown fox jumps over the lazy dog".
Proof. by vm_compute. Qed.

(** [test_zero_key] and [test_empty_string]. *)
Example test_zero_key :
  @caesar_encrypt latin1 (str "HELLO WORLD") 0 = str "HELLO WORLD" ∧
  @caesar_encrypt latin1 [] 5 = [].
Proof. by vm_compute. Qed.

(** [tests/test_bruteforce.py]: the plaintext is found at the encryption
    key. *)
Example test_bruteforce :
  @caesar_bruteforce latin1 (@caesar_encrypt latin1 (str "This is a test") 5)
    !! 4%nat
  = Some (5, str "This is a test").
Proof. by vm_compute. Qed.

(** The docstring of [stopwords_stats]. *)
Example stopwords_stats_docstring :
  ∃ pct,
    @stopwords_stats latin1 (str "the cat and the dog")
      {[str "the"; str "and"; str "is"]} = Ok (3, 5, pct) ∧
    (pct == 60)%Q.
Proof. eexists. split; by vm_compute. Qed.

(** A text with letters: two thirds [a], one third [b], the digit not
    counted. *)
Example letter_frequency_aab1 :
  ∃ m, @letter_frequency latin1 (str "aab1") = Ok m ∧
       m !! str "a" = Some 66.67%Q ∧ m !! str "b" = Some 33.33%Q ∧
       m !! str "c" = Some 0.00%Q ∧ m !! str "1" = None.
Proof. eexists. split; [reflexivity|]. by vm_compute. Qed.

(** The shift finder on a sentence encrypted with the shift 3 answers the
    letter d; the statistic of shift 3 (33.47) is far below the others. *)
Example frequency_attack_vigenere_finds_d :
  @frequency_attack_vigenere latin1
    (@caesar_encrypt latin1
       (str "The enemy is at the gate and the rest of the men are in the woods")
       3)
    (str "en")
  = Ok (chr (ord 97 + 3)).
Proof. by vm_compute. Qed.

(** The scenario ranked: with "the" as the only English stopword the
    shift-7 English result comes first; the results behind it tie on the
    score and keep the enumeration order. *)
Example ranking_of_scenario :
  match @results_sorted latin1 (str "Aol xbpjr iyvdu mve") {[str "le"]}
          {[str "the"]} with
  | Ok ranked => (λ r, (key r, language r)) <$> take 4 ranked
  | Raise _ => []
  end
  = [(7, str "en"); (1, str "fr"); (1, str "en"); (2, str "fr")].
Proof. by vm_compute. Qed.

(** * Further properties of the sources *)

(** ** crypto/caesar.py and crypto/bruteforce.py *)

Section CaesarAlgebra.
Context {U : PyStr} {L : PyStrLaws U}.

(** The image of an ASCII letter is an ASCII letter of the same case. *)
Lemma encrypt_char_ascii_letter (k c : Z) :
  is_ascii_letter c = true →
  is_ascii_letter (encrypt_char k c) = true ∧
  is_ascii_upper (encrypt_char k c) = is_ascii_upper c.
Proof.
  intros Hc. pose proof (ascii_letter_range c Hc) as Hr.
  unfold encrypt_char. rewrite isalpha_ascii, Hc, isupper_ascii by done.
  unfold ord, chr. unfold is_ascii_letter, is_ascii_lower in *.
  destruct (is_ascii_upper c) eqn:Hu; unfold is_ascii_upper in *;
    match goal with |- context [?x `mod` 26] =>
      pose proof (Z.mod_pos_bound x 26) end.
  - split; [apply orb_true_iff; left|]; apply andb_true_iff; lia.
  - simpl in Hc. apply andb_true_iff in Hc as [H1 H2].
    split; [apply orb_true_iff; right; apply andb_true_iff; lia|].
    apply andb_false_iff. lia.
Qed.

Lemma encrypt_char_compose (a b c : Z) :
  (isalpha c = true → is_ascii_letter c = true) →
  encrypt_char b (encrypt_char a c) = encrypt_char (a + b) c.
Proof.
  intros Hc. destruct (isalpha c) eqn:Ha.
  - specialize (Hc eq_refl).
    destruct (encrypt_char_ascii_letter a c Hc) as [He Hu].
    pose proof (ascii_letter_range _ He) as Hr.
    pose proof (ascii_letter_range _ Hc) as Hrc.
    unfold encrypt_char at 1. rewrite isalpha_ascii, He, isupper_ascii, Hu by done.
    unfold encrypt_char. rewrite Ha, isupper_ascii by done.
    unfold ord, chr. destruct (is_ascii_upper c).
    + replace ((c - 65 + a) `mod` 26 + 65 - 65 + b)
        with ((c - 65 + a) `mod` 26 + b) by lia.
      rewrite Zplus_mod_idemp_l. do 2 f_equal. lia.
    + replace ((c - 97 + a) `mod` 26 + 97 - 97 + b)
        with ((c - 97 + a) `mod` 26 + b) by lia.
      rewrite Zplus_mod_idemp_l. do 2 f_equal. lia.
  - unfold encrypt_char. by rewrite Ha, Ha.
Qed.

Lemma encrypt_char_zero (c : Z) :
  (isalpha c = true → is_ascii_letter c = true) → encrypt_char 0 c = c.
Proof.
  intros Hc. unfold encrypt_char. destruct (isalpha c) eqn:Ha; [|done].
  specialize (Hc eq_refl). pose proof (ascii_letter_range _ Hc) as Hr.
  rewrite isupper_ascii by done. unfold ord, chr.
  unfold is_ascii_letter, is_ascii_lower in Hc.
  destruct (is_ascii_upper c) eqn:Hu; unfold is_ascii_upper in *.
  - apply andb_true_iff in Hu. rewrite Z.add_0_r, Z.mod_small; lia.
  - simpl in Hc. apply andb_true_iff in Hc. rewrite Z.add_0_r, Z.mod_small; lia.
Qed.

End CaesarAlgebra.

(** X1 (round trip on ASCII letters): for every text whose alphabetic
    characters are all ASCII letters and every integer key, decrypting the
    encryption, and encrypting the decryption, with the same key give the
    text back. *)
Theorem caesar_decrypt_inverts_on_ascii_letters
    {U : PyStr} {L : PyStrLaws U} (t : pystr) (k : Z) :
  ascii_letters_only t →
  caesar_decrypt (caesar_encrypt t k) k = t ∧
  caesar_encrypt (caesar_decrypt t k) k = t.
Proof.
  intros Ht. split; [by apply caesar_roundtrip_ascii|].
  unfold caesar_decrypt. rewrite !caesar_encrypt_map, <- list_fmap_compose.
  induction Ht as [|c t Hc _ IH]; [done|].
  cbn [fmap list_fmap compose]. rewrite encrypt_char_compose by done.
  replace (- k + k) with 0 by lia. rewrite encrypt_char_zero by done.
  f_equal. exact IH.
Qed.

Lemma ascii_letters_only_check (t : pystr) :
  forallb (λ c, negb (@isalpha latin1 c) || is_ascii_letter c) t = true →
  @ascii_letters_only latin1 t.
Proof.
  intros H. apply Forall_forall. intros c Hc Ha.
  rewrite forallb_forall in H. specialize (H c).
  rewrite <- list_elem_of_In in H. specialize (H Hc).
  rewrite Ha in H. exact H.
Qed.

Lemma caesar_decrypt_inverts_on_ascii_letters_witness :
  @caesar_decrypt latin1
    (@caesar_encrypt latin1 (str "Hello, World! 123") 7) 7
  = str "Hello, World! 123" ∧
  @caesar_encrypt latin1
    (@caesar_decrypt latin1 (str "Hello, World! 123") 7) 7
  = str "Hello, World! 123".
Proof.
  apply (@caesar_decrypt_inverts_on_ascii_letters latin1 latin1_laws).
  apply ascii_letters_only_check. reflexivity.
Defined.

(** X2 (the brute force finds the plaintext): when the letters of the
    plaintext are ASCII letters and the shift is in 1..25, the brute force of
    the ciphertext holds the pair (shift, plaintext) at index shift - 1. *)
Theorem caesar_bruteforce_recovers_plaintext
    {U : PyStr} {L : PyStrLaws U} (p : pystr) (s : Z) :
  ascii_letters_only p → 1 <= s <= 25 →
  caesar_bruteforce (caesar_encrypt p s) !! Z.to_nat (s - 1) = Some (s, p).
Proof.
  intros Hp Hs.
  destruct (caesar_bruteforce_enumerates (caesar_encrypt p s)) as [_ Hk].
  rewrite Hk by done. by rewrite caesar_roundtrip_ascii.
Qed.

Lemma caesar_bruteforce_recovers_plaintext_witness :
  @caesar_bruteforce latin1 (@caesar_encrypt latin1 (str "This is a test") 5)
    !! Z.to_nat (5 - 1)
  = Some (5, str "This is a test").
Proof.
  apply (@caesar_bruteforce_recovers_plaintext latin1 latin1_laws).
  - apply ascii_letters_only_check. reflexivity.
  - lia.
Defined.

(** X3 (what encryption does to each character): a character that is not
    alphabetic stays at its position unchanged; an alphabetic one becomes an
    ASCII capital when it is upper case for the interpreter and an ASCII
    small letter otherwise. *)
Theorem caesar_encrypt_characterwise {U : PyStr} (t : pystr) (k : Z) :
  ∀ i c, t !! i = Some c →
    ∃ e, caesar_encrypt t k !! i = Some e ∧
         (isalpha c = false → e = c) ∧
         (isalpha c = true → isupper c = true → 65 <= e <= 90) ∧
         (isalpha c = true → isupper c = false → 97 <= e <= 122).
Proof.
  intros i c Hi. exists (encrypt_char k c). split.
  - by rewrite caesar_encrypt_map, list_lookup_fmap, Hi.
  - unfold encrypt_char, ord, chr. split; [|split].
    + by intros ->.
    + intros -> ->.
      pose proof (Z.mod_pos_bound (c - 65 + k) 26). lia.
    + intros -> ->.
      pose proof (Z.mod_pos_bound (c - 97 + k) 26). lia.
Qed.

Lemma caesar_encrypt_characterwise_witness :
  ∃ e, @caesar_encrypt latin1 (str "a1") 3 !! 1%nat = Some e ∧
       (@isalpha latin1 49 = false → e = 49) ∧
       (@isalpha latin1 49 = true → @isupper latin1 49 = true → 65 <= e <= 90) ∧
       (@isalpha latin1 49 = true → @isupper latin1 49 = false → 97 <= e <= 122).
Proof.
  apply (@caesar_encrypt_characterwise latin1 (str "a1") 3 1%nat 49).
  reflexivity.
Defined.

(** X4 (keys add up): on a text whose letters are ASCII letters,
    encrypting with [a] and then with [b] is encrypting with [a + b], and
    the key 0 leaves the text unchanged. *)
Theorem caesar_encrypt_keys_add
    {U : PyStr} {L : PyStrLaws U} (t : pystr) (a b : Z) :
  ascii_letters_only t →
  caesar_encrypt (caesar_encrypt t a) b = caesar_encrypt t (a + b) ∧
  caesar_encrypt t 0 = t.
Proof.
  intros Ht. rewrite !caesar_encrypt_map, <- list_fmap_compose.
  induction Ht as [|c t Hc _ [IH1 IH2]]; [done|].
  cbn [fmap list_fmap compose].
  rewrite encrypt_char_compose, encrypt_char_zero by done.
  split; f_equal; done.
Qed.

Lemma caesar_encrypt_keys_add_witness :
  @caesar_encrypt latin1 (@caesar_encrypt latin1 (str "HeLLo WoRLd") 5) 30
  = @caesar_encrypt latin1 (str "HeLLo WoRLd") (5 + 30) ∧
  @caesar_encrypt latin1 (str "HeLLo WoRLd") 0 = str "HeLLo WoRLd".
Proof.
  apply (@caesar_encrypt_keys_add latin1 latin1_laws).
  apply ascii_letters_only_check. reflexivity.
Defined.

(** X5 (decryption is encryption by the complement): for every text and
    every integer key, [caesar_decrypt t k] is [caesar_encrypt t (26 - k)];
    so the brute-force entry for shift 19 is the encryption by 7. *)
Theorem caesar_decrypt_is_encrypt_complement {U : PyStr} (t : pystr) (k : Z) :
  caesar_decrypt t k = caesar_encrypt t (26 - k).
Proof.
  unfold caesar_decrypt. rewrite !caesar_encrypt_map.
  apply list_fmap_ext. intros _ c _.
  rewrite (encrypt_char_mod (- k)), (encrypt_char_mod (26 - k)).
  f_equal. replace (26 - k) with (- k + 1 * 26) by lia.
  by rewrite Z_mod_plus_full.
Qed.

(** X6 (the brute force covers every key): for every integer key that is
    not a multiple of 26, the decryption with that key is the plaintext of
    the brute-force entry for the shift [k mod 26]. *)
Theorem caesar_bruteforce_covers_every_key {U : PyStr} (c : pystr) (k : Z) :
  k `mod` 26 ≠ 0 →
  caesar_bruteforce c !! Z.to_nat (k `mod` 26 - 1)
  = Some (k `mod` 26, caesar_decrypt c k).
Proof.
  intros Hk. pose proof (Z.mod_pos_bound k 26).
  destruct (caesar_bruteforce_enumerates c) as [_ Hb].
  rewrite Hb by lia. do 2 f_equal.
  unfold caesar_decrypt. rewrite !caesar_encrypt_map.
  apply list_fmap_ext. intros _ x _.
  rewrite (encrypt_char_mod (- (k `mod` 26))), (encrypt_char_mod (- k)).
  f_equal. rewrite <- (Z.sub_0_l (k `mod` 26)), <- (Z.sub_0_l k).
  by rewrite Zminus_mod_idemp_r.
Qed.

Lemma caesar_bruteforce_covers_every_key_witness :
  @caesar_bruteforce latin1 (str "KHOOR") !! Z.to_nat (29 `mod` 26 - 1)
  = Some (29 `mod` 26, @caesar_decrypt latin1 (str "KHOOR") 29).
Proof.
  apply (@caesar_bruteforce_covers_every_key latin1). by vm_compute.
Defined.

(** ** crypto/scoring.py and the linguistic features *)

Lemma findall_letters_concat (cur s : pystr) :
  concat (findall_letters cur s)
  = cur ++ filter (λ c, is_ascii_letter c = true) s.
Proof.
  revert cur. induction s as [|c s IH]; intros cur; cbn [findall_letters].
  - rewrite filter_nil, app_nil_r. destruct cur; [done|].
    cbn [concat]. by rewrite app_nil_r.
  - rewrite filter_cons. destruct (is_ascii_letter c) eqn:Hc.
    + rewrite decide_True by done. rewrite IH. by rewrite <- app_assoc.
    + rewrite decide_False by done. destruct cur as [|x cur].
      * by rewrite IH.
      * cbn [concat]. by rewrite IH.
Qed.

Lemma findall_letters_tokens (cur s : pystr) :
  Forall (λ c, is_ascii_letter c = true) cur →
  Forall (λ w, w ≠ [] ∧ Forall (λ c, is_ascii_letter c = true) w)
         (findall_letters cur s).
Proof.
  revert cur. induction s as [|c s IH]; intros cur Hcur; cbn [findall_letters].
  - destruct cur; [constructor|]. constructor; [done|constructor].
  - destruct (is_ascii_letter c) eqn:Hc.
    + apply IH. apply Forall_app. split; [done|]. by constructor.
    + destruct cur as [|x cur]; [by apply IH|].
      constructor; [done|]. by apply IH.
Qed.

(** X7 (the tokenizer): every token is a non-empty run of ASCII letters,
    and the tokens, put end to end, are exactly the ASCII letters of the
    lower-cased text in their order: tokenizing drops the other characters
    and nothing else. *)
Theorem tokenize_keeps_exactly_the_letters {U : PyStr} (t : pystr) :
  Forall (λ w, w ≠ [] ∧ Forall (λ c, is_ascii_letter c = true) w)
         (tokenize t) ∧
  concat (tokenize t) = filter (λ c, is_ascii_letter c = true) (lower t).
Proof.
  unfold tokenize. split.
  - by apply findall_letters_tokens.
  - by rewrite findall_letters_concat.
Qed.

(** A part of a whole, as a percentage. *)
Lemma percentage_range (a b : Z) :
  0 <= a <= b → 0 < b →
  (0 <= inject_Z a / inject_Z b * 100 <= 100)%Q.
Proof.
  intros Ha Hb.
  assert (Hq : (0 < inject_Z b)%Q) by (unfold Qlt; simpl; lia).
  assert (H0 : (0 <= inject_Z a / inject_Z b)%Q).
  { apply Qle_shift_div_l; [done|]. rewrite Qmult_0_l.
    unfold Qle. simpl. lia. }
  assert (H1 : (inject_Z a / inject_Z b <= 1)%Q).
  { apply Qle_shift_div_r; [done|]. rewrite Qmult_1_l.
    rewrite <- Zle_Qle. lia. }
  split; lra.
Qed.

Lemma filter_length_le {A} (P : A → Prop) `{∀ x, Decision (P x)} (l : list A) :
  0 <= len (filter P l) <= len l.
Proof. unfold len. pose proof (length_filter P l). lia. Qed.

(** X8 (stopword statistics): for every text and stopword set the
    statistics are returned without error; the stopword count is the one
    [stopwords_score] computes, it lies between 0 and the token count, the
    token count is the number of tokens, and the percentage lies in
    [0, 100]. *)
Theorem stopwords_stats_bounds {U : PyStr} (t : pystr) (S : gset pystr) :
  ∃ n_stop n_total pct,
    stopwords_stats t S = Ok (n_stop, n_total, pct) ∧
    n_stop = Scoring.stopwords_score t S ∧
    n_total = len (tokenize t) ∧
    0 <= n_stop <= n_total ∧
    (0 <= pct <= 100)%Q.
Proof.
  unfold stopwords_stats, Scoring.stopwords_score.
  pose proof (filter_length_le (λ w, w ∈ S) (tokenize t)) as Hle.
  set (nt := len (tokenize t)) in *. set (ns := len (filter _ (tokenize t))) in *.
  destruct (Z.ltb_spec 0 nt) as [Hpos|Hz].
  - rewrite py_div_inject_Z by lia. rewrite !bind_Ok.
    eexists _, _, _. split; [reflexivity|]. repeat split; try lia.
    + apply (round_between 0 100); by apply percentage_range.
    + apply (round_between 0 100); by apply percentage_range.
  - rewrite bind_Ok. eexists _, _, _. split; [reflexivity|].
    repeat split; try lia; rewrite round_zero; done.
Qed.

(** X9 (language by stopwords): [detect_language] of [crypto/scoring.py]
    returns the larger of the two stopword counts; the language is ["fr"]
    only when the French count is strictly larger, a tie goes to ["en"];
    the returned count is at most the number of tokens. *)
Theorem scoring_detect_language_max {U : PyStr}
    (t : pystr) (stop_fr stop_en : gset pystr) :
  let score_fr := Scoring.stopwords_score t stop_fr in
  let score_en := Scoring.stopwords_score t stop_en in
  let r := Scoring.detect_language t stop_fr stop_en in
  r.2 = Z.max score_fr score_en ∧
  (r.1 = str "fr" ∧ score_en < score_fr ∨
   r.1 = str "en" ∧ score_fr <= score_en) ∧
  0 <= r.2 <= len (tokenize t).
Proof.
  intros score_fr score_en r. subst r. unfold Scoring.detect_language.
  fold score_fr score_en.
  pose proof (filter_length_le (λ w, w ∈ stop_fr) (tokenize t)) as Hfr.
  pose proof (filter_length_le (λ w, w ∈ stop_en) (tokenize t)) as Hen.
  fold (Scoring.stopwords_score t stop_fr) in Hfr.
  fold (Scoring.stopwords_score t stop_en) in Hen.
  fold score_fr in Hfr. fold score_en in Hen.
  destruct (Z.ltb_spec score_en score_fr); cbn [fst snd].
  - split; [lia|]. split; [by left|lia].
  - split; [lia|]. split; [by right|lia].
Qed.

(** X10 (alpha ratio): the ratio is returned without error and lies in
    [0, 100]; it is 100 for a non-empty text made of alphabetic characters
    only. *)
Theorem alpha_ratio_bounds {U : PyStr} (t : pystr) :
  ∃ v, alpha_ratio t = Ok v ∧ (0 <= v <= 100)%Q ∧
       (t ≠ [] → Forall (λ c, isalpha c = true) t → (v == 100)%Q).
Proof.
  unfold alpha_ratio.
  pose proof (filter_length_le (λ c, isalpha c = true) t) as Hle.
  destruct (Z.ltb_spec 0 (len t)) as [Hpos|Hz].
  - rewrite py_div_inject_Z by lia. rewrite bind_Ok.
    eexists. split; [reflexivity|]. split.
    + apply (round_between 0 100); by apply percentage_range.
    + intros _ Hall.
      assert (E : filter (λ c, isalpha c = true) t = t).
      { clear -Hall. induction Hall as [|c t Hc _ IH]; [done|].
        rewrite filter_cons, decide_True by done. by rewrite IH. }
      rewrite E.
      assert (Hq : ¬ (inject_Z (len t) == 0)%Q) by (unfold Qeq; simpl; lia).
      assert (E1 : (inject_Z (len t) / inject_Z (len t) * 100 == 100)%Q)
        by (field; exact Hq).
      rewrite E1. by vm_compute.
  - exists 0%Q. split; [done|]. split; [split; by vm_compute|].
    intros Hne. destruct t; [done|]. unfold len in Hz. simpl in Hz. lia.
Qed.

Lemma round_lower_bound (a : Z) (x : Q) (n : nat) :
  (inject_Z a <= x)%Q → (inject_Z a <= round x n)%Q.
Proof.
  intros Ha.
  by destruct (round_between a (Qceiling x) x n Ha (Qle_ceiling x)).
Qed.

Lemma total_length_ge (words : list pystr) :
  Forall (λ w, w ≠ []) words → len words <= foldr Z.add 0 (len <$> words).
Proof.
  unfold len. induction 1 as [|w ws Hw _ IH]; [done|].
  cbn [fmap list_fmap foldr length]. destruct w; [done|].
  cbn [length]. lia.
Qed.

(** X11 (average word length): the average is returned without error; it
    is 0 exactly when the text has no token, and at least 1 otherwise. *)
Theorem avg_word_length_bounds {U : PyStr} (t : pystr) :
  ∃ v, avg_word_length t = Ok v ∧
       (tokenize t = [] → v = 0%Q) ∧
       (tokenize t ≠ [] → (1 <= v)%Q).
Proof.
  unfold avg_word_length.
  assert (Hne : Forall (λ w : pystr, w ≠ []) (tokenize t)).
  { eapply Forall_impl; [apply findall_letters_tokens; constructor|].
    by intros w [? _]. }
  destruct (tokenize t) as [|w ws] eqn:E.
  - exists 0%Q. by repeat split.
  - assert (Hpos : 0 < len (w :: ws)) by (unfold len; simpl; lia).
    rewrite py_div_inject_Z by lia. rewrite bind_Ok.
    eexists. split; [reflexivity|]. split; [done|]. intros _.
    apply (round_lower_bound 1).
    apply Qle_shift_div_l; [unfold Qlt; simpl; lia|].
    rewrite Qmult_1_l, <- Zle_Qle. by apply total_length_ge.
Qed.

(** ** crypto/frequency.py *)

Lemma Counter_foldl_lookup (l : list pystr) (m : gmap pystr Z) (x : pystr) :
  foldl (λ count y, <[y := default 0 (count !! y) + 1]> count) m l !! x
  = match m !! x with
    | Some v => Some (v + occurrences l x)
    | None => if occurrences l x =? 0 then None else Some (occurrences l x)
    end.
Proof.
  revert m. induction l as [|y l IH]; intros m; cbn [foldl].
  - unfold occurrences, len. simpl.
    destruct (m !! x); [f_equal; lia|done].
  - rewrite IH. unfold occurrences, len in *. rewrite filter_cons.
    destruct (decide (y = x)) as [->|Hne].
    + rewrite lookup_insert_eq. cbn [length].
      destruct (m !! x) as [v|]; cbn [default]; unfold id.
      * f_equal. lia.
      * destruct (Z.eqb_spec (Z.of_nat (S (length (filter (λ y, y = x) l)))) 0);
          [lia|]. f_equal. lia.
    + by rewrite lookup_insert_ne.
Qed.

Lemma Counter_lookup (l : list pystr) (x : pystr) :
  Counter l !! x
  = if occurrences l x =? 0 then None else Some (occurrences l x).
Proof. unfold Counter. by rewrite Counter_foldl_lookup, lookup_empty. Qed.

Lemma occurrences_split (l : list pystr) (i : pystr) :
  len l = occurrences l i + len (filter (λ y, y ≠ i) l).
Proof.
  unfold occurrences, len. induction l as [|y l IH]; [done|].
  rewrite !filter_cons. destruct (decide (y = i)) as [->|Hne].
  - rewrite decide_False by (by intros ?). cbn [length]. lia.
  - rewrite decide_True by done. cbn [length]. lia.
Qed.

Lemma occurrences_filter_ne (l : list pystr) (i x : pystr) :
  occurrences (filter (λ y, y ≠ i) l) x
  = if decide (x = i) then 0 else occurrences l x.
Proof.
  unfold occurrences, len. induction l as [|y l IH].
  - by destruct (decide (x = i)).
  - rewrite !filter_cons. destruct (decide (y ≠ i)) as [Hy|Hy].
    + rewrite filter_cons. destruct (decide (y = x)) as [->|Hne].
      * rewrite decide_False by done. rewrite decide_False in IH by done.
        cbn [length]. lia.
      * exact IH.
    + apply dec_stable in Hy as ->.
      destruct (decide (x = i)) as [->|Hne]; [exact IH|].
      rewrite decide_False by (by intros ->). exact IH.
Qed.

(** The sum of [v * (v - 1)] over the counter of a list never exceeds
    [N * (N - 1)] for the length [N] of the list. *)
Lemma coincidences_bound (m : gmap pystr Z) :
  ∀ l,
    (∀ x, m !! x = if occurrences l x =? 0 then None
                   else Some (occurrences l x)) →
    0 <= map_fold (λ _ v acc, acc + v * (v - 1)) 0 m <= len l * (len l - 1).
Proof.
  apply (map_fold_weak_ind
    (λ r m, ∀ l,
       (∀ x, m !! x = if occurrences l x =? 0 then None
                      else Some (occurrences l x)) →
       0 <= r <= len l * (len l - 1))).
  - intros l _. pose proof (len_nonneg l). nia.
  - intros i v m' r Hi IH l Hl.
    assert (Hv : v = occurrences l i ∧ 0 < v).
    { specialize (Hl i). rewrite lookup_insert_eq in Hl.
      pose proof (filter_length_le (λ y, y = i) l) as Hle.
      fold (occurrences l i) in Hle.
      destruct (Z.eqb_spec (occurrences l i) 0); [done|].
      injection Hl as ->. lia. }
    destruct Hv as [-> Hpos].
    specialize (IH (filter (λ y, y ≠ i) l)).
    pose proof (occurrences_split l i) as Hsplit.
    pose proof (len_nonneg (filter (λ y, y ≠ i) l)) as Hn.
    destruct IH as [IH1 IH2].
    { intros x. rewrite occurrences_filter_ne.
      destruct (decide (x = i)) as [->|Hne]; [done|].
      specialize (Hl x). by rewrite lookup_insert_ne in Hl. }
    nia.
Qed.

Lemma ratio_range (a b : Z) :
  0 <= a <= b → 0 < b → (0 <= inject_Z a / inject_Z b <= 1)%Q.
Proof.
  intros Ha Hb.
  assert (Hq : (0 < inject_Z b)%Q) by (unfold Qlt; simpl; lia).
  split.
  - apply Qle_shift_div_l; [done|]. rewrite Qmult_0_l.
    unfold Qle. simpl. lia.
  - apply Qle_shift_div_r; [done|]. rewrite Qmult_1_l.
    rewrite <- Zle_Qle. lia.
Qed.

Lemma index_of_coincidence_range {U : PyStr} (t : pystr) :
  ∃ v, index_of_coincidence t = Ok v ∧ (0 <= v <= 1)%Q.
Proof.
  unfold index_of_coincidence. set (N := len (letters_of t)).
  destruct (Z.leb_spec N 1) as [|HN].
  - exists 0%Q. split; [done|]. split; by vm_compute.
  - rewrite py_div_inject_Z by nia. rewrite bind_Ok.
    eexists. split; [reflexivity|].
    apply (round_between 0 1). 
    + apply ratio_range; [|nia].
      apply coincidences_bound. apply Counter_lookup.
    + apply ratio_range; [|nia].
      apply coincidences_bound. apply Counter_lookup.
Qed.

(** X12 (index of coincidence): for every text the index is returned
    without error and lies in [0, 1]; the upper end is reached, the index
    of a text of two equal letters is 1. *)
Theorem index_of_coincidence_bounds {U : PyStr} (t : pystr) :
  (∃ v, index_of_coincidence t = Ok v ∧ (0 <= v <= 1)%Q) ∧
  ∃ v1, @index_of_coincidence latin1 (str "aa") = Ok v1 ∧ (v1 == 1)%Q.
Proof.
  split; [apply index_of_coincidence_range|].
  eexists. split; by vm_compute.
Qed.

Lemma chi_squared_sum_nonneg (freq_obs : gmap pystr Q)
    (freq_ref : list (pystr * Q)) (acc : Q) :
  (0 <= acc)%Q →
  ∃ v,
    foldl (λ acc item,
             chi2 ← acc;
             let observed := default 0%Q (freq_obs !! item.1) in
             let expected := item.2 in
             if Qltb 0 expected
             then q ← py_div ((observed - expected) ^ 2) expected;
                  Ok (chi2 + q)%Q
             else Ok chi2)
          (Ok acc) freq_ref = Ok v ∧ (0 <= v)%Q.
Proof.
  revert acc. induction freq_ref as [|[l e] ref IH]; intros acc Hacc;
    [by eexists|].
  cbn [foldl]. cbn [mbind res_bind fst snd].
  destruct (Qltb_spec 0 e) as [He|He]; [|by apply IH].
  rewrite py_div_nonzero by (intros E; rewrite E in He; by apply Qlt_irrefl in He).
  cbn [mbind res_bind]. apply IH.
  assert (0 <= (default 0 (freq_obs !! l) - e) ^ 2 / e)%Q.
  { apply Qle_shift_div_l; [done|]. rewrite Qmult_0_l.
    apply Qsqr_nonneg. }
  lra.
Qed.

Lemma chi_squared_test_nonneg {U : PyStr} (t language : pystr) :
  ∃ v, chi_squared_test t language = Ok v ∧ (0 <= v)%Q.
Proof.
  unfold chi_squared_test. cbv zeta.
  destruct (letter_frequency_total t) as [m ->]. rewrite bind_Ok.
  destruct (chi_squared_sum_nonneg m
    (if decide (language = str "fr") then FRENCH_FREQ else ENGLISH_FREQ) 0)
    as (v & Hv & Hpos); [done|].
  cbv zeta in Hv. rewrite Hv, bind_Ok. eexists. split; [reflexivity|].
  by apply (round_lower_bound 0).
Qed.

(** X13 (chi-squared): for every text and language the statistic is
    returned without error and is not negative; on a text without letters
    it does not depend on the text: it is the rounded sum of the reference
    frequencies, 97.18 for French and 100.02 for English. *)
Theorem chi_squared_test_bounds {U : PyStr} (t language : pystr) :
  (∃ v, chi_squared_test t language = Ok v ∧ (0 <= v)%Q) ∧
  (filter (λ c, isalpha c = true) t = [] →
   chi_squared_test t (str "fr") = Ok 97.18%Q ∧
   chi_squared_test t (str "en") = Ok 100.02%Q).
Proof.
  split; [apply chi_squared_test_nonneg|].
  intros Ht. unfold chi_squared_test.
  rewrite (letter_frequency_empty t Ht). split; by vm_compute.
Qed.

(** X14 (language by letter frequencies): [detect_language] of
    [crypto/frequency.py] never raises and answers ["fr"] or ["en"]; a
    text without alphabetic characters (the empty text, digits,
    punctuation) is answered ["fr"]. *)
Theorem frequency_detect_language_total {U : PyStr} (t : pystr) :
  (∃ l, Frequency.detect_language t = Ok l ∧ (l = str "fr" ∨ l = str "en")) ∧
  (filter (λ c, isalpha c = true) t = [] →
   Frequency.detect_language t = Ok (str "fr")).
Proof.
  unfold Frequency.detect_language. split.
  - destruct (chi_squared_test_total t (str "fr")) as [a ->].
    destruct (chi_squared_test_total t (str "en")) as [b ->].
    rewrite !bind_Ok. eexists. split; [reflexivity|].
    destruct (Qltb a b); [by left|by right].
  - intros Ht. unfold chi_squared_test.
    rewrite (letter_frequency_empty t Ht). by vm_compute.
Qed.

(** X15 (the shift finder decrypts like [caesar_decrypt]): the inline loop
    of [frequency_attack_vigenere] computes, for every subtext and shift,
    the Caesar decryption of the subtext by that shift. *)
Theorem vigenere_inner_loop_is_caesar_decrypt {U : PyStr}
    (subtext : pystr) (shift : Z) :
  shift_back subtext shift = caesar_decrypt subtext shift ∧
  length (shift_back subtext shift) = length subtext.
Proof.
  split; [apply shift_back_caesar_decrypt|].
  rewrite shift_back_caesar_decrypt. unfold caesar_decrypt.
  rewrite caesar_encrypt_map. apply length_fmap.
Qed.

Lemma encrypt_char_isalpha {U : PyStr} {L : PyStrLaws U} (k c : Z) :
  isalpha (encrypt_char k c) = isalpha c.
Proof.
  unfold encrypt_char, ord, chr. destruct (isalpha c) eqn:Ha; [|done].
  destruct (isupper c);
    match goal with |- context [?x `mod` 26] =>
      pose proof (Z.mod_pos_bound x 26) end;
    rewrite isalpha_ascii by lia;
    unfold is_ascii_letter, is_ascii_upper, is_ascii_lower;
    apply orb_true_iff; [left|right]; apply andb_true_iff; lia.
Qed.

(** X16 (the alpha ratio does not see the shift): encrypting or decrypting
    leaves the number of alphabetic characters and the alpha ratio of a
    text unchanged, so the 25 candidates of a ciphertext share one alpha
    ratio. *)
Theorem alpha_ratio_shift_invariant {U : PyStr} {L : PyStrLaws U}
    (t : pystr) (k : Z) :
  alpha_ratio (caesar_encrypt t k) = alpha_ratio t ∧
  alpha_ratio (caesar_decrypt t k) = alpha_ratio t.
Proof.
  assert (H : ∀ j, alpha_ratio (caesar_encrypt t j) = alpha_ratio t).
  { intros j. unfold alpha_ratio. rewrite caesar_encrypt_map.
    assert (E : len (filter (λ c, isalpha c = true) (encrypt_char j <$> t))
                = len (filter (λ c, isalpha c = true) t)).
    { unfold len. f_equal. rewrite filter_fmap_length.
      f_equal. apply list_filter_iff. intros c.
      by rewrite encrypt_char_isalpha. }
    rewrite E. unfold len. by rewrite length_fmap. }
  split; [apply H|apply (H (- k))].
Qed.

Lemma alpha_ratio_shift_invariant_witness :
  @alpha_ratio latin1 (@caesar_encrypt latin1 (str "Hello, World! 123") 7)
  = @alpha_ratio latin1 (str "Hello, World! 123") ∧
  @alpha_ratio latin1 (@caesar_decrypt latin1 (str "Hello, World! 123") 7)
  = @alpha_ratio latin1 (str "Hello, World! 123").
Proof. exact (@alpha_ratio_shift_invariant latin1 latin1_laws _ 7). Defined.

(** ** bin/crack_caesar.py: the pipeline *)

Lemma compute_normalized_score_range (n : Z) (pct c2 i al ar : Q) :
  (0 <= pct)%Q → (0 <= c2)%Q → (0 <= i)%Q → (0 <= ar <= 100)%Q →
  (0 <= compute_normalized_score n pct c2 i al ar <= 100)%Q.
Proof.
  intros Hp Hc Hi Ha.
  pose proof (score_stopwords_range pct Hp).
  pose proof (score_chi2_range c2 Hc).
  pose proof (score_ic_range i Hi).
  pose proof (score_avg_len_range al).
  pose proof (score_alpha_range ar Ha).
  unfold compute_normalized_score.
  apply (round_between 0 100); unfold inject_Z; lra.
Qed.

Lemma stopwords_stats_pct_nonneg {U : PyStr} (t : pystr) (S : gset pystr) :
  ∃ st, stopwords_stats t S = Ok st ∧ (0 <= st.2)%Q.
Proof.
  unfold stopwords_stats.
  pose proof (filter_length_le (λ w, w ∈ S) (tokenize t)) as Hle.
  destruct (Z.ltb_spec 0 (len (tokenize t))) as [Hpos|Hz].
  - rewrite py_div_inject_Z by lia. rewrite !bind_Ok.
    eexists. split; [reflexivity|]. cbn [snd].
    apply (round_lower_bound 0). by apply percentage_range.
  - rewrite bind_Ok. eexists. split; [reflexivity|]. cbn [snd].
    by apply (round_lower_bound 0).
Qed.

Lemma alpha_ratio_range {U : PyStr} (t : pystr) :
  ∃ v, alpha_ratio t = Ok v ∧ (0 <= v <= 100)%Q.
Proof.
  unfold alpha_ratio.
  pose proof (filter_length_le (λ c, isalpha c = true) t) as Hle.
  destruct (Z.ltb_spec 0 (len t)) as [Hpos|Hz].
  - rewrite py_div_inject_Z by lia. rewrite bind_Ok.
    eexists. split; [reflexivity|].
    apply (round_between 0 100); by apply percentage_range.
  - exists 0%Q. split; [done|]. split; by vm_compute.
Qed.

(** One evaluation gives a result for the shift, the language and the text
    it was given, with a score in [0, 100]. *)
Lemma evaluate_well_formed {U : PyStr}
    (k : Z) (t lang : pystr) (S : gset pystr) :
  ∃ r, evaluate k t lang S = Ok r ∧ key r = k ∧ language r = lang ∧
       plaintext r = t ∧ (0 <= score r <= 100)%Q.
Proof.
  unfold evaluate.
  destruct (stopwords_stats_pct_nonneg t S) as (st & -> & Hst).
  rewrite bind_Ok.
  destruct (chi_squared_test_nonneg t lang) as (c & -> & Hc). rewrite bind_Ok.
  destruct (index_of_coincidence_range t) as (i & -> & Hi). rewrite bind_Ok.
  destruct (avg_word_length_total t) as [al ->]. rewrite bind_Ok.
  destruct (alpha_ratio_range t) as (ar & -> & Har). rewrite bind_Ok.
  eexists. split; [reflexivity|]. cbn [key language plaintext score].
  repeat split; try done; apply compute_normalized_score_range;
    try done; apply Hi.
Qed.

Lemma analyse_loop_well_formed {U : PyStr} (stop_fr stop_en : gset pystr)
    (candidates all : list (Z * pystr)) (acc : list result) :
  candidates ⊆ all →
  ∃ out,
    foldl (λ acc cand,
             foldl (λ acc ls,
                      results ← acc;
                      r ← evaluate cand.1 cand.2 ls.1 ls.2;
                      Ok (results ++ [r]))
                   acc [(str "fr", stop_fr); (str "en", stop_en)])
          (Ok acc) candidates
    = Ok (acc ++ out) ∧
    Forall (well_formed_for all) out.
Proof.
  revert acc. induction candidates as [|[k t] cands IH]; intros acc Hsub.
  - exists []. by rewrite app_nil_r.
  - destruct (evaluate_well_formed k t (str "fr") stop_fr)
      as (r1 & E1 & K1 & L1 & P1 & S1).
    destruct (evaluate_well_formed k t (str "en") stop_en)
      as (r2 & E2 & K2 & L2 & P2 & S2).
    destruct (IH ((acc ++ [r1]) ++ [r2])) as (out & Hfold & Hout).
    { intros x Hx. apply Hsub. by right. }
    exists (r1 :: r2 :: out). split.
    + replace (acc ++ r1 :: r2 :: out) with (((acc ++ [r1]) ++ [r2]) ++ out)
        by (by rewrite <- !app_assoc).
      rewrite <- Hfold. rewrite foldl_cons_eq. f_equal.
      cbn [foldl fst snd]. by rewrite bind_Ok, E1, !bind_Ok, E2, bind_Ok.
    + assert (Hin : (k, t) ∈ all) by (apply Hsub; by left).
      constructor; [|constructor; [|done]]; unfold well_formed_for.
      * rewrite K1, P1, L1. split; [done|]. split; [by left|done].
      * rewrite K2, P2, L2. split; [done|]. split; [by right|done].
Qed.

Lemma analyse_well_formed {U : PyStr}
    (c : pystr) (stop_fr stop_en : gset pystr) :
  ∃ results,
    analyse c stop_fr stop_en = Ok results ∧
    Forall (well_formed_for (caesar_bruteforce c)) results.
Proof.
  unfold analyse.
  destruct (analyse_loop_well_formed stop_fr stop_en
              (caesar_bruteforce c) (caesar_bruteforce c) [])
    as (out & -> & Hout); [done|].
  by exists out.
Qed.

(** X17 (every scored result is well formed): for every ciphertext and
    stopword sets the analysis returns its results without error, and each
    result has a shift in 1..25, the plaintext that [caesar_decrypt] gives
    for that shift, the language ["fr"] or ["en"], and a score in
    [0, 100]. *)
Theorem analyse_results_well_formed {U : PyStr}
    (ciphertext : pystr) (stop_fr stop_en : gset pystr) :
  ∃ results,
    analyse ciphertext stop_fr stop_en = Ok results ∧
    Forall (λ r,
              1 <= key r <= 25 ∧
              plaintext r = caesar_decrypt ciphertext (key r) ∧
              (language r = str "fr" ∨ language r = str "en") ∧
              (0 <= score r <= 100)%Q)
           results.
Proof.
  destruct (analyse_well_formed ciphertext stop_fr stop_en)
    as (results & Hres & Hwf).
  exists results. split; [done|].
  eapply Forall_impl; [exact Hwf|].
  intros r (Hin & Hlang & Hscore).
  rewrite caesar_bruteforce_map in Hin.
  apply list_elem_of_fmap in Hin as (k & Hk & Hin%elem_of_seqZ).
  injection Hk as Hk1 Hk2. rewrite Hk2, Hk1.
  repeat split; try done; try lia; apply Hscore.
Qed.

Lemma StronglySorted_True {A} (l : list A) :
  StronglySorted (λ _ _ : A, True) l.
Proof.
  induction l as [|x l IH]; constructor; [done|].
  by apply Forall_forall.
Qed.

(** X18 (the automatic decision): for every ciphertext and stopword sets
    the ranked list has a first and a second entry, so the decision is
    taken without an index error; the retained result is the first of the
    ranking, no result has a higher score, and the gap to the runner-up, on
    which the confidence label is computed, lies in [0, 100]. *)
Theorem automatic_decision_is_top_score {U : PyStr}
    (ciphertext : pystr) (stop_fr stop_en : gset pystr) :
  ∃ ranked best gap,
    results_sorted ciphertext stop_fr stop_en = Ok ranked ∧
    decision ranked = Some (best, gap, confidence_of gap) ∧
    ranked !! 0%nat = Some best ∧
    Forall (λ r, (score r <= score best)%Q) ranked ∧
    (0 <= gap <= 100)%Q.
Proof.
  destruct (analyse_enumerates ciphertext stop_fr stop_en)
    as (results & Hres & Htag).
  destruct (analyse_well_formed ciphertext stop_fr stop_en)
    as (results' & Hres' & Hwf).
  assert (results' = results) as -> by congruence.
  assert (Hlen : length (sorted_reverse score results) = 50%nat).
  { rewrite (sorted_reverse_perm score results).
    rewrite <- (length_fmap tag), Htag. reflexivity. }
  assert (Hwf' : Forall (well_formed_for (caesar_bruteforce ciphertext))
                        (sorted_reverse score results))
    by (by rewrite (sorted_reverse_perm score results)).
  pose proof (sorted_reverse_stable score (λ _ _, True) results
                (StronglySorted_True results)) as Hsorted.
  unfold results_sorted. rewrite Hres, bind_Ok.
  destruct (sorted_reverse score results) as [|best [|second rest]];
    [discriminate..|].
  exists (best :: second :: rest), best, (score best - score second)%Q.
  split; [done|]. split; [done|]. split; [done|].
  apply StronglySorted_inv in Hsorted as [_ Hbest].
  assert (Hle : Forall (λ r, (score r <= score best)%Q) (second :: rest)).
  { eapply Forall_impl; [exact Hbest|]. intros r Hr.
    by eapply ranks_before_key. }
  split; [constructor; [apply Qle_refl|exact Hle]|].
  apply Forall_cons in Hwf' as [(_ & _ & Hb) Hwf'].
  apply Forall_cons in Hwf' as [(_ & _ & Hs) _].
  apply Forall_cons in Hle as [Hle _].
  split; lra.
Qed.

(** X19 (the confidence label): the [if/elif] chain on the gap labels
    exactly four intervals: very high above 10, high in (5, 10], medium in
    (2, 5], low up to 2. *)
Theorem confidence_of_intervals (gap : Q) :
  (confidence_of gap = TresHaute ↔ (10 < gap)%Q) ∧
  (confidence_of gap = Haute ↔ (5 < gap)%Q ∧ (gap <= 10)%Q) ∧
  (confidence_of gap = Moyenne ↔ (2 < gap)%Q ∧ (gap <= 5)%Q) ∧
  (confidence_of gap = Faible ↔ (gap <= 2)%Q).
Proof.
  unfold confidence_of.
  destruct (Qltb_spec 10 gap) as [H10|H10];
    [|destruct (Qltb_spec 5 gap) as [H5|H5];
      [|destruct (Qltb_spec 2 gap) as [H2|H2]]];
    repeat split; intros; try done; try lra.
Qed.

(** ** More on crypto/frequency.py *)

(** X20 (letter frequencies are percentages): for every text the
    frequency dict is returned without error and each of its values lies in
    [0, 100]. *)
Theorem letter_frequency_values_are_percentages {U : PyStr} (t : pystr) :
  ∃ m, letter_frequency t = Ok m ∧
       ∀ x q, m !! x = Some q → (0 <= q <= 100)%Q.
Proof.
  destruct (filter (λ c, isalpha c = true) t) as [|c cs] eqn:E.
  - exists ∅. split; [by apply letter_frequency_empty|].
    intros x q Hx. by rewrite lookup_empty in Hx.
  - eexists. split; [apply letter_frequency_letters; by rewrite E|].
    intros x q Hx. rewrite foldl_insert_lookup in Hx.
    destruct (decide (x ∈ alphabet)); [|by rewrite lookup_empty in Hx].
    injection Hx as <-. rewrite Counter_get.
    apply (round_between 0 100); apply percentage_range;
      try apply filter_length_le;
      unfold len; rewrite letters_of_length, E; simpl; lia.
Qed.

Lemma encrypt_char_not_alpha {U : PyStr} (k c : Z) :
  isalpha c = false → encrypt_char k c = c.
Proof. intros H. unfold encrypt_char. by rewrite H. Qed.

Lemma shift_back_letterless {U : PyStr} (t : pystr) (shift : Z) :
  filter (λ c, isalpha c = true) t = [] → shift_back t shift = t.
Proof.
  intros Ht. rewrite shift_back_caesar_decrypt. unfold caesar_decrypt.
  rewrite caesar_encrypt_map.
  induction t as [|c t IH]; [done|].
  rewrite filter_cons in Ht. destruct (decide (isalpha c = true)); [done|].
  cbn [fmap list_fmap]. rewrite encrypt_char_not_alpha, IH; [done..|].
  by destruct (isalpha c).
Qed.

(** X21 (the shift finder on a text without letters): when the subtext
    has no alphabetic character (for instance the empty subtext) all 26
    shifts tie and the function returns the letter a. *)
Theorem frequency_attack_vigenere_letterless {U : PyStr}
    (subtext language : pystr) :
  filter (λ c, isalpha c = true) subtext = [] →
  frequency_attack_vigenere subtext language = Ok (chr (ord 97)).
Proof.
  intros Ht.
  destruct (vigenere_loop subtext language 26) as (st & Hfold & Hst).
  destruct Hst as (Hr & _ & Hmin).
  unfold frequency_attack_vigenere, range.
  change (26 - 0) with (Z.of_nat 26). rewrite Hfold, bind_Ok.
  destruct (Z.eq_dec st.1 0) as [->|Hne]; [done|].
  destruct (Hmin 0) as [_ Hlt]; [lia|].
  rewrite !shift_back_letterless in Hlt by done.
  exfalso. eapply Qlt_irrefl. apply Hlt. lia.
Qed.

Lemma frequency_attack_vigenere_letterless_witness :
  @frequency_attack_vigenere latin1 (str "12 34!") (str "en")
  = Ok (chr (ord 97)).
Proof.
  apply (@frequency_attack_vigenere_letterless latin1). reflexivity.
Defined.

(** ** The tokens do not see the shift *)

Lemma findall_letters_lengths (s1 s2 cur1 cur2 : pystr) :
  Forall2 (λ a b, is_ascii_letter a = is_ascii_letter b) s1 s2 →
  length cur1 = length cur2 →
  length <$> findall_letters cur1 s1 = length <$> findall_letters cur2 s2.
Proof.
  intros Hs. revert cur1 cur2.
  induction Hs as [|a b s1 s2 Hab _ IH]; intros cur1 cur2 Hcur;
    cbn [findall_letters].
  - destruct cur1, cur2; try discriminate; [done|].
    cbn [fmap list_fmap]. by rewrite Hcur.
  - rewrite <- Hab. destruct (is_ascii_letter a).
    + apply IH. rewrite !length_app. cbn [length]. lia.
    + destruct cur1, cur2; try discriminate; [by apply IH|].
      cbn [fmap list_fmap]. rewrite Hcur. f_equal. by apply IH.
Qed.

Lemma avg_word_length_by_lengths {U : PyStr} (t1 t2 : pystr) :
  length <$> tokenize t1 = length <$> tokenize t2 →
  avg_word_length t1 = avg_word_length t2.
Proof.
  intros H. unfold avg_word_length.
  assert (Hsum : foldr Z.add 0 (len <$> tokenize t1)
                 = foldr Z.add 0 (len <$> tokenize t2)).
  { revert H. generalize (tokenize t1) (tokenize t2).
    induction l as [|w ws IH]; intros [|w' ws'] Hl; try discriminate; [done|].
    cbn [fmap list_fmap] in *. injection Hl as Hw Hws.
    cbn [foldr]. unfold len at 1 3. rewrite Hw. f_equal. by apply IH. }
  assert (Hlen : len (tokenize t1) = len (tokenize t2)).
  { unfold len. f_equal.
    by rewrite <- (length_fmap length (tokenize t1)), H, length_fmap. }
  destruct (tokenize t1) as [|w1 ws1], (tokenize t2) as [|w2 ws2];
    try discriminate; [done|].
  by rewrite Hsum, Hlen.
Qed.

(** X22 (the word lengths do not see the shift): for an ASCII text the
    tokens of an encryption have, one by one, the lengths of the tokens of
    the text; so the token count and the average word length are the same
    for the text and for each of its encryptions and decryptions. *)
Theorem tokens_shift_invariant {U : PyStr} {L : PyStrLaws U}
    (t : pystr) (k : Z) :
  Forall (λ c, 0 <= c < 128) t →
  length <$> tokenize (caesar_encrypt t k) = length <$> tokenize t ∧
  avg_word_length (caesar_encrypt t k) = avg_word_length t.
Proof.
  intros Ht.
  assert (Hlens : length <$> tokenize (caesar_encrypt t k)
                  = length <$> tokenize t).
  { assert (Hascii : Forall (λ c, 0 <= c < 128) (caesar_encrypt t k)).
    { rewrite caesar_encrypt_map. apply Forall_fmap.
      eapply Forall_impl; [exact Ht|]. intros c Hc. cbn.
      destruct (isalpha c) eqn:Ha.
      - pose proof (encrypt_char_alpha_range k c Ha). lia.
      - by rewrite encrypt_char_not_alpha. }
    rewrite !tokenize_ascii by done.
    apply findall_letters_lengths; [|done].
    rewrite caesar_encrypt_map, <- list_fmap_compose.
    apply Forall2_fmap, Forall_Forall2_diag.
    eapply Forall_impl; [exact Ht|]. intros c Hc. cbn.
    assert (Hlow : ∀ x, is_ascii_letter (ascii_lower x) = is_ascii_letter x).
    { intros x. unfold ascii_lower.
      destruct (is_ascii_upper x) eqn:Hu; [|done].
      unfold is_ascii_letter, is_ascii_upper, is_ascii_lower in *.
      apply andb_true_iff in Hu as [H1%Z.leb_le H2%Z.leb_le]. zcases. }
    rewrite !Hlow. destruct (isalpha c) eqn:Ha.
    - rewrite isalpha_ascii in Ha by done.
      by destruct (encrypt_char_ascii_letter k c Ha) as [-> _].
    - by rewrite encrypt_char_not_alpha. }
  split; [done|by apply avg_word_length_by_lengths].
Qed.

Lemma tokens_shift_invariant_witness :
  length <$> @tokenize latin1 (@caesar_encrypt latin1 (str "Hello, World! 123") 7)
  = length <$> @tokenize latin1 (str "Hello, World! 123") ∧
  @avg_word_length latin1 (@caesar_encrypt latin1 (str "Hello, World! 123") 7)
  = @avg_word_length latin1 (str "Hello, World! 123").
Proof.
  apply (@tokens_shift_invariant latin1 latin1_laws).
  by apply ascii_text_check.
Defined.
